(** * Travel recommender agent: plugins, streaming aggregation and driver loop

    A shallow embedding of [ai-agents-sandbox/travel-recommender-agent.py]:
    - the two kernel plugins, [BookTravelPlugin] and [DestinationPlugin];
    - the body of the [async for] loop of [main], which folds the streamed
      response of the agent into [agent_name], [full_response],
      [function_calls] and [function_results];
    - the outer loop of [main] over the user inputs.

    Python objects that are mutated in place live in an explicit store; a
    method is a computation in a small state-and-exception monad. The agent
    ([agent.invoke_stream]) is the semantic-kernel library, not this
    program: it is a parameter of the driver. *)

From Stdlib Require Import Ascii String.
From stdpp Require Import base option list strings gmap.

Set Default Proof Using "Type".

(** ** Python strings *)

Module PyStr.

(** A character is a code point below 256. *)
Definition newline : string := String "010"%char "".

(** [str.isspace] for one character: the code points below 256 that
    Python counts as white space. *)
Definition isspace (c : ascii) : bool :=
  let n := nat_of_ascii c in
  ((9 <=? n) && (n <=? 13)) || ((28 <=? n) && (n <=? 32))
  || (n =? 133) || (n =? 160).

Fixpoint lstrip (s : string) : string :=
  match s with
  | EmptyString => EmptyString
  | String c s' => if isspace c then lstrip s' else s
  end.

Definition rstrip (s : string) : string := String.rev (lstrip (String.rev s)).

(** [s.strip()] *)
Definition strip (s : string) : string := rstrip (lstrip s).

(** [bool(s)] for a string: only the empty string is false. *)
Definition truthy (s : string) : bool :=
  match s with EmptyString => false | String _ _ => true end.

(** [bool(x)] for [x : str | None]. *)
Definition truthy_opt (x : option string) : bool :=
  match x with None => false | Some s => truthy s end.

(** [c * n] *)
Fixpoint repeat (c : string) (n : nat) : string :=
  match n with O => "" | S n' => c +:+ repeat c n' end.

(** [f"{v}"]: how a value is rendered inside an f-string. *)
Class Format (V : Type) : Type := format : V → string.
Global Instance format_str : Format string := λ s, s.

End PyStr.

(** ** Python lists of strings *)

Module PyList.

(** [x in l], where [x] may be [None] and [l] holds strings only. *)
Definition contains (x : option string) (l : list string) : bool :=
  match x with
  | None => false
  | Some s => existsb (String.eqb s) l
  end.

(** The list left by [l.remove(s)]: the first occurrence of [s] is
    dropped; [None] when [s] does not occur (Python raises ValueError). *)
Fixpoint remove (s : string) (l : list string) : option (list string) :=
  match l with
  | [] => None
  | y :: l' => if String.eqb y s then Some l' else cons y <$> remove s l'
  end.

End PyList.

(** ** Semantic-kernel contents, as far as [main] looks into them *)

Inductive AuthorRole : Type := SYSTEM | USER | ASSISTANT | TOOL.

(** A message of the chat history. *)
Record ChatMessageContent : Type := mkMessage {
  role : AuthorRole;
  message : string
}.

(** An item of a streamed content: a function call, a function result, or
    anything else (streamed text, for one). [V] is the type of call
    arguments and call results. *)
Inductive Item (V : Type) : Type :=
| FunctionCallContent (function_name : string) (arguments : V)
| FunctionResultContent (function_name : string) (result : V)
| StreamingTextContent (text : string).
Arguments FunctionCallContent {V} function_name arguments.
Arguments FunctionResultContent {V} function_name result.
Arguments StreamingTextContent {V} text.

(** One content yielded by [agent.invoke_stream]. For [name] and [content]
    the outer [option] is [hasattr]: [None] when the object has no such
    attribute, [Some None] when the attribute is [None]. *)
Record StreamingChatMessageContent (V : Type) : Type := mkContent {
  name : option (option string);
  content : option (option string);
  items : list (Item V)
}.
Arguments mkContent {V} name content items.
Arguments name {V} s.
Arguments content {V} s.
Arguments items {V} s.

(** ** Store, outcomes and the monad of methods *)

(** Outcome of a call: a value, or a raised exception named by its class. *)
Inductive outcome (A : Type) : Type :=
| Ok (a : A)
| Raise (exn : string).
Arguments Ok {A} a.
Arguments Raise {A} exn.

(** The instance attributes of [DestinationPlugin]; [destinations] is a
    reference to a list object of the store. *)
Record DestinationPlugin : Type := mkDestinationPlugin {
  destinations : nat;
  latest_destination : option string
}.

(** The store: the list objects by address, the [DestinationPlugin] object
    added to the kernel, the [ChatHistory] object of [main], and what was
    printed so far (one entry per [print]). *)
Record Store : Type := mkStore {
  lists : list (list string);
  self : DestinationPlugin;
  chat_history : list ChatMessageContent;
  stdout : list string
}.

Definition M (A : Type) : Type := Store → outcome A * Store.

Global Instance M_ret : MRet M := λ A a σ, (Ok a, σ).
Global Instance M_bind : MBind M := λ A B f m σ,
  match m σ with
  | (Ok a, σ') => f a σ'
  | (Raise e, σ') => (Raise e, σ')
  end.

Definition raise {A : Type} (exn : string) : M A := λ σ, (Raise exn, σ).

(** Reading an address that holds no object cannot happen in Python; the
    model raises a name no Python code raises. *)
Definition dangling : string := "<dangling reference>".

Definition deref (l : nat) : M (list string) := λ σ,
  match lists σ !! l with
  | Some xs => (Ok xs, σ)
  | None => (Raise dangling, σ)
  end.

(** A new list object holding [xs]; its address is the result. *)
Definition alloc (xs : list string) : M nat := λ σ,
  (Ok (length (lists σ)),
   {| lists := lists σ ++ [xs]; self := self σ;
      chat_history := chat_history σ; stdout := stdout σ |}).

(** The object at [l] becomes [xs]. *)
Definition assign (l : nat) (xs : list string) : M unit := λ σ,
  (Ok (),
   {| lists := <[l := xs]> (lists σ); self := self σ;
      chat_history := chat_history σ; stdout := stdout σ |}).

(** [l.copy()]: a new list object with the same elements. *)
Definition list_copy (l : nat) : M nat :=
  xs ← deref l; alloc xs.

(** [x in l] *)
Definition list_contains (x : option string) (l : nat) : M bool :=
  xs ← deref l; mret (PyList.contains x xs).

(** [l.remove(x)]: mutates the object at [l]. *)
Definition list_remove (l : nat) (x : option string) : M unit :=
  xs ← deref l;
  match x ≫= (λ s, PyList.remove s xs) with
  | Some xs' => assign l xs'
  | None => raise "ValueError"
  end.

(** [random.choice(l)]: IndexError on an empty sequence, otherwise the
    element at [_randbelow(len(l))], which is [draw mod len(l)] for the
    value [draw] the generator yields. *)
Definition random_choice (draw : nat) (l : nat) : M string :=
  xs ← deref l;
  match xs with
  | [] => raise "IndexError"
  | _ :: _ =>
      match xs !! (draw mod length xs) with
      | Some x => mret x
      | None => raise "IndexError"
      end
  end.

Definition print (line : string) : M unit := λ σ,
  (Ok (),
   {| lists := lists σ; self := self σ;
      chat_history := chat_history σ; stdout := stdout σ ++ [line] |}).

Definition get_self : M DestinationPlugin := λ σ, (Ok (self σ), σ).

(** [self.latest_destination = v] *)
Definition set_latest_destination (v : option string) : M unit := λ σ,
  (Ok (),
   {| lists := lists σ;
      self := {| destinations := destinations (self σ);
                 latest_destination := v |};
      chat_history := chat_history σ; stdout := stdout σ |}).

(** [chat_history = ChatHistory()] *)
Definition new_chat_history : M unit := λ σ,
  (Ok (),
   {| lists := lists σ; self := self σ; chat_history := []; stdout := stdout σ |}).

(** [chat_history.add_user_message(text)] *)
Definition add_user_message (text : string) : M unit := λ σ,
  (Ok (),
   {| lists := lists σ; self := self σ;
      chat_history := chat_history σ ++ [{| role := USER; message := text |}];
      stdout := stdout σ |}).

(** [for x in l: body(x)] *)
Fixpoint for_each {A : Type} (body : A → M unit) (l : list A) : M unit :=
  match l with
  | [] => mret ()
  | x :: l' => body x;; for_each body l'
  end.

(** ** The plugins *)

Module BookTravelPlugin.

Definition book_flight (date location : string) : M string :=
  mret ("Flight booked to " +:+ location +:+ " on " +:+ date +:+ ".").

End BookTravelPlugin.

Module DestinationPlugin.

Definition vacation_destinations : list string :=
  [ "Barcelona, Spain"; "Paris, France"; "Berlin, Germany"; "Tokyo, Japan";
    "Sydney, Australia"; "New York, USA"; "Cairo, Egypt";
    "Cape Town, South Africa"; "Rio de Janeiro, Brazil"; "Bali, Indonesia" ].

(** The store once [__init__] has run, for a plugin whose destination list
    is [ds]: the list object is allocated and no destination has been
    suggested yet. *)
Definition init_with (ds : list string) : Store :=
  {| lists := [ds];
     self := {| destinations := 0; latest_destination := None |};
     chat_history := [];
     stdout := [] |}.

(** [DestinationPlugin()] *)
Definition init : Store := init_with vacation_destinations.

Definition get_random_destination (draw : nat) : M string :=
  this ← get_self;
  available_destinations ← list_copy (destinations this);
  found ← list_contains (latest_destination this) available_destinations;
  (if found : bool
   then list_remove available_destinations (latest_destination this)
   else mret ());;
  next_destination ← random_choice draw available_destinations;
  print ("Selected destination: " +:+ next_destination);;
  set_latest_destination (Some next_destination);;
  mret next_destination.

(** Successive invocations by the kernel, one per draw of the random
    generator: every outcome is recorded and the plugin object lives on,
    also after an invocation that raised. *)
Fixpoint invoke_each (draws : list nat) (σ : Store) : list (outcome string) * Store :=
  match draws with
  | [] => ([], σ)
  | r :: rs =>
      let '(o, σ') := get_random_destination r σ in
      let '(os, σ'') := invoke_each rs σ' in
      (o :: os, σ'')
  end.

End DestinationPlugin.

(** ** The driver: [main] *)

Section driver.

Import PyStr.

Context {V : Type} `{!Format V}.

(** The local variables of one turn. *)
Record TurnLocals : Type := mkLocals {
  agent_name : option string;
  full_response : string;
  function_calls : list string;
  function_results : gmap string V
}.

(** [agent_name = None; full_response = ""; function_calls = [];
    function_results = {}] *)
Definition fresh_locals : TurnLocals :=
  {| agent_name := None; full_response := ""; function_calls := [];
     function_results := ∅ |}.

(** [f"Calling: {item.function_name}({item.arguments})"] *)
Definition call_info (fn : string) (args : V) : string :=
  "Calling: " +:+ fn +:+ "(" +:+ format args +:+ ")".

(** [f"Result: {item.result}"] *)
Definition result_info (res : V) : string :=
  "Result: " +:+ format res.

(** Body of [for item in content.items]. *)
Definition track (acc : TurnLocals) (item : Item V) : TurnLocals :=
  match item with
  | FunctionCallContent fn args =>
      {| agent_name := agent_name acc; full_response := full_response acc;
         function_calls := function_calls acc ++ [call_info fn args];
         function_results := function_results acc |}
  | FunctionResultContent fn res =>
      {| agent_name := agent_name acc; full_response := full_response acc;
         function_calls := function_calls acc ++ [result_info res];
         function_results := <[fn := res]> (function_results acc) |}
  | StreamingTextContent _ => acc
  end.

(** [isinstance(item, (FunctionCallContent, FunctionResultContent))] *)
Definition is_function_item (item : Item V) : bool :=
  match item with
  | FunctionCallContent _ _ | FunctionResultContent _ _ => true
  | StreamingTextContent _ => false
  end.

(** The guard of [full_response += content.content]; the result is the
    text to add, if any. *)
Definition response_text (c : StreamingChatMessageContent V) : option string :=
  match content c with
  | Some (Some s) =>
      if truthy s && truthy (strip s) && negb (existsb is_function_item (items c))
      then Some s else None
  | _ => None
  end.

(** Body of [async for content in agent.invoke_stream(chat_history)]. *)
Definition collect (acc : TurnLocals) (c : StreamingChatMessageContent V) : TurnLocals :=
  let acc1 :=
    match name c with
    | Some n =>
        if negb (truthy_opt (agent_name acc))
        then {| agent_name := n; full_response := full_response acc;
                function_calls := function_calls acc;
                function_results := function_results acc |}
        else acc
    | None => acc
    end in
  let acc2 := foldl track acc1 (items c) in
  match response_text c with
  | Some s =>
      {| agent_name := agent_name acc2;
         full_response := full_response acc2 +:+ s;
         function_calls := function_calls acc2;
         function_results := function_results acc2 |}
  | None => acc2
  end.

(** The whole [async for] loop of one turn. *)
Definition aggregate (stream : list (StreamingChatMessageContent V)) : TurnLocals :=
  foldl collect fresh_locals stream.

(** [agent.invoke_stream(chat_history)], run until the stream ends: the
    contents it yields. It works on the store: it may call the plugins,
    change the chat history it was handed, or raise. *)
Variable invoke_stream : M (list (StreamingChatMessageContent V)).

(** The printing that ends a turn: the function calls, if any, then the
    agent's name and the response. *)
Definition render (acc : TurnLocals) : M unit :=
  match function_calls acc with
  | [] => mret ()
  | _ :: _ =>
      print (newline +:+ "Function Calls:");;
      print (repeat "-" 20);;
      for_each print (function_calls acc);;
      print (repeat "-" 20)
  end;;
  print (newline
         +:+ (if truthy_opt (agent_name acc)
              then default "" (agent_name acc) else "Assistant")
         +:+ ":");;
  print (full_response acc);;
  print (newline +:+ repeat "=" 50).

(** Body of [for user_input in user_inputs]. *)
Definition turn (user_input : string) : M unit :=
  add_user_message user_input;;
  print (newline +:+ repeat "=" 50);;
  print ("User: " +:+ user_input);;
  print (repeat "=" 50);;
  stream ← invoke_stream;
  render (aggregate stream).

Definition user_inputs : list string :=
  [ "Plan me a day trip.";
    "I don't like that destination. Plan me another vacation.";
    "I want to book a flight to the destination you suggested, on the next Friday.";
    "Actually, I am busy then. Book me a flight to the destination you suggested, on the next Saturday." ].

(** [main], for any list of user inputs. *)
Definition converse (inputs : list string) : M unit :=
  new_chat_history;;
  for_each turn inputs.

Definition main : M unit := converse user_inputs.

End driver.

Arguments TurnLocals V : clear implicits.

(** ** Notions used in the statements *)

(** The candidates an invocation of [get_random_destination] chooses from:
    the destinations without the first occurrence of the latest one. *)
Definition available (latest : option string) (ds : list string) : list string :=
  match latest with
  | Some s => default ds (PyList.remove s ds)
  | None => ds
  end.

(** The destination list of the plugin is the list object [ds]. *)
Definition holds (σ : Store) (ds : list string) : Prop :=
  lists σ !! destinations (self σ) = Some ds.

(** The store once the copy was taken and cut down to [av]. *)
Definition with_copy (σ : Store) (av : list string) : Store :=
  {| lists := lists σ ++ [av]; self := self σ;
     chat_history := chat_history σ; stdout := stdout σ |}.

(** The store after a suggestion of [x] out of the copy [av]. *)
Definition suggested (σ : Store) (av : list string) (x : string) : Store :=
  {| lists := lists σ ++ [av];
     self := {| destinations := destinations (self σ);
                latest_destination := Some x |};
     chat_history := chat_history σ;
     stdout := stdout σ ++ ["Selected destination: " +:+ x] |}.

(** No value of [outs] equals the one just before it; [prev] stands before
    the first. *)
Fixpoint no_repeat_from (prev : option string) (outs : list string) : Prop :=
  match outs with
  | [] => True
  | x :: outs' => prev ≠ Some x ∧ no_repeat_from (Some x) outs'
  end.

Definition no_consecutive_repeat (outs : list string) : Prop :=
  ∀ i x y, outs !! i = Some x → outs !! S i = Some y → x ≠ y.

(** The latest destination is set and is one of the destinations. *)
Definition suggestion_invariant (σ : Store) (ds : list string) : Prop :=
  holds σ ds ∧ ∃ v, latest_destination (self σ) = Some v ∧ v ∈ ds.

Section stream_notions.

Import PyStr.

Context {V : Type} `{!Format V}.

(** The items of a stream, in the order they arrive. *)
Definition all_items (stream : list (StreamingChatMessageContent V)) : list (Item V) :=
  stream ≫= items.

(** The calls requested by a list of items: name and arguments. *)
Definition requests (its : list (Item V)) : list (string * V) :=
  omap (λ item, match item with
                | FunctionCallContent fn args => Some (fn, args)
                | _ => None
                end) its.

(** The results a list of items carries for the function [fn]. *)
Definition results_named (fn : string) (its : list (Item V)) : list V :=
  omap (λ item, match item with
                | FunctionResultContent fn' res =>
                    if String.eqb fn' fn then Some res else None
                | _ => None
                end) its.

(** The line an item adds to [function_calls], if any. *)
Definition log_line (item : Item V) : option string :=
  match item with
  | FunctionCallContent fn args => Some (call_info fn args)
  | FunctionResultContent _ res => Some (result_info res)
  | StreamingTextContent _ => None
  end.

(** The text delta of a content: [content.content], empty when the
    attribute is missing or [None]. *)
Definition text_delta (c : StreamingChatMessageContent V) : string :=
  match content c with
  | Some (Some s) => s
  | _ => ""
  end.

(** A content carries an identifying name when it has a [name] attribute
    that is a non-empty string. *)
Definition identifying_name (c : StreamingChatMessageContent V) : option string :=
  match name c with
  | Some (Some n) => if truthy n then Some n else None
  | _ => None
  end.

(** No item of the content is a function call or a function result. *)
Definition call_free (c : StreamingChatMessageContent V) : Prop :=
  existsb is_function_item (items c) = false.

End stream_notions.

(** A line of the call log that announces a call. *)
Definition is_call_line (line : string) : bool := String.prefix "Calling: " line.

(** The string has white space only (the empty string too). *)
Fixpoint blank (s : string) : bool :=
  match s with
  | EmptyString => true
  | String c s' => PyStr.isspace c && blank s'
  end.

(** Concatenation of strings, in order. *)
Definition join (l : list string) : string := foldr String.append "" l.

(** The messages [add_user_message] makes of the inputs. *)
Definition user_messages (inputs : list string) : list ChatMessageContent :=
  mkMessage USER <$> inputs.

(** A computation that leaves the chat history as it found it. *)
Definition keeps_history {A : Type} (m : M A) : Prop :=
  ∀ σ, chat_history (m σ).2 = chat_history σ.

(** The store in which a turn invokes the agent: the user message is
    appended and the input is echoed. *)
Definition at_invocation (user_input : string) (σ : Store) : Store :=
  {| lists := lists σ; self := self σ;
     chat_history := chat_history σ ++ [mkMessage USER user_input];
     stdout := stdout σ
               ++ [PyStr.newline +:+ PyStr.repeat "=" 50;
                   "User: " +:+ user_input;
                   PyStr.repeat "=" 50] |}.

(** The store after [lines] were printed. *)
Definition printed (lines : list string) (σ : Store) : Store :=
  {| lists := lists σ; self := self σ; chat_history := chat_history σ;
     stdout := stdout σ ++ lines |}.

(** What the end of a turn prints for the locals [acc]. *)
Definition rendered {V : Type} (acc : TurnLocals V) : list string :=
  match function_calls acc with
  | [] => []
  | _ :: _ =>
      [PyStr.newline +:+ "Function Calls:"; PyStr.repeat "-" 20]
      ++ function_calls acc ++ [PyStr.repeat "-" 20]
  end
  ++ [ PyStr.newline
       +:+ (if PyStr.truthy_opt (agent_name acc)
            then default "" (agent_name acc) else "Assistant")
       +:+ ":";
       full_response acc;
       PyStr.newline +:+ PyStr.repeat "=" 50 ].

(** ** Streams and agents used as concrete inputs *)

Module Samples.

(** A plugin with one destination, Paris, which it has just suggested. *)
Definition only_paris : Store :=
  {| lists := [["Paris, France"]];
     self := {| destinations := 0;
                latest_destination := Some "Paris, France" |};
     chat_history := []; stdout := [] |}.

(** A content of the agent "TravelAgent" that carries the text [s]. *)
Definition text_chunk (s : string) : StreamingChatMessageContent string :=
  mkContent (Some (Some "TravelAgent")) (Some (Some s)) [StreamingTextContent s].

(** A content that carries the items [its] and no text. *)
Definition item_chunk (its : list (Item string)) : StreamingChatMessageContent string :=
  mkContent (Some (Some "TravelAgent")) (Some (Some "")) its.

(** A content whose [name] attribute is [n]. *)
Definition named_chunk (n : option string) (s : string) : StreamingChatMessageContent string :=
  mkContent (Some n) (Some (Some s)) [StreamingTextContent s].

(** A reply in three deltas, the second a single space. *)
Definition spaced_reply : list (StreamingChatMessageContent string) :=
  [text_chunk "Sure,"; text_chunk " "; text_chunk "Bali?"].

(** A reply with one call that got its result twice and one call,
    [book_flight], that got none. *)
Definition reply_with_calls : list (StreamingChatMessageContent string) :=
  [ text_chunk "Sure, ";
    item_chunk [FunctionCallContent "get_random_destination" "{}"];
    item_chunk [FunctionResultContent "get_random_destination" "Paris, France"];
    item_chunk [FunctionCallContent "book_flight" "{}"];
    item_chunk [FunctionResultContent "get_random_destination" "Bali, Indonesia"];
    text_chunk "how about Bali?" ].

(** A reply whose first two contents have no name to show. *)
Definition late_name_reply : list (StreamingChatMessageContent string) :=
  [ named_chunk None "Sure, "; named_chunk (Some "") "how ";
    named_chunk (Some "TravelAgent") "about ";
    named_chunk (Some "OtherAgent") "Bali?" ].

(** An agent that streams [spaced_reply] and touches nothing. *)
Definition quiet_agent : M (list (StreamingChatMessageContent string)) :=
  mret spaced_reply.

End Samples.

(** ** Further notions: series of invocations, printed lines, composition *)

(** The values a series of invocations returned, in order. *)
Definition returned (outs : list (outcome string)) : list string :=
  omap (λ o, match o with Ok v => Some v | Raise _ => None end) outs.

(** The lines the invocations of a series printed. *)
Definition selected_lines (outs : list (outcome string)) : list string :=
  (λ v, "Selected destination: " +:+ v) <$> returned outs.

Section more_stream_notions.

Import PyStr.

Context {V : Type} `{!Format V}.

(** The content adds its text to [full_response]: the text has a character
    that is not white space and no item is a function call or result. *)
Definition shows_text (c : StreamingChatMessageContent V) : bool :=
  negb (blank (text_delta c)) && negb (existsb is_function_item (items c)).

(** The values of the function results among the items, in order. *)
Definition results (its : list (Item V)) : list V :=
  omap (λ item, match item with
                | FunctionResultContent _ res => Some res
                | _ => None
                end) its.

(** The first identifying name of the stream, if any. *)
Definition first_name (stream : list (StreamingChatMessageContent V)) : option string :=
  head (omap identifying_name stream).

(** [agent_name or 'Assistant'] *)
Definition display_name (acc : TurnLocals V) : string :=
  if truthy_opt (agent_name acc) then default "" (agent_name acc) else "Assistant".

(** The lines about function calls a turn prints for the log [log]. *)
Definition call_block (log : list string) : list string :=
  match log with
  | [] => []
  | _ :: _ => [newline +:+ "Function Calls:"; repeat "-" 20] ++ log ++ [repeat "-" 20]
  end.

End more_stream_notions.

(** A line of the call log that reports a result. *)
Definition is_result_line (line : string) : bool := String.prefix "Result: " line.

(** A computation that at most appends to the chat history. *)
Definition appends_only {A : Type} (m : M A) : Prop :=
  ∀ σ, chat_history σ `prefix_of` chat_history (m σ).2.

Module MoreSamples.

(** An agent that streams [Samples.spaced_reply] and, as the
    semantic-kernel agent does, appends its reply to the history. *)
Definition replying_agent : M (list (StreamingChatMessageContent string)) :=
  λ σ, (Ok Samples.spaced_reply,
        {| lists := lists σ; self := self σ;
           chat_history := chat_history σ ++ [mkMessage ASSISTANT "Sure, Bali?"];
           stdout := stdout σ |}).

(** An agent whose service fails once the history holds three messages. *)
Definition failing_agent : M (list (StreamingChatMessageContent string)) :=
  λ σ, if 3 <=? length (chat_history σ)
       then (Raise "ServiceResponseException", σ)
       else replying_agent σ.

End MoreSamples.

(** ** The code interpreter agent

    [ai-agent-service/codeinterpreteragent.py]: one function,
    [run_agent_with_visualization], which talks to the Azure AI agent
    service through [project_client]. The service is a parameter: what it
    replies to a call is a function of all the calls made so far, the
    call itself last. The world is the list of these calls and the lines
    printed. The function is a coroutine without an [await]: it is modelled
    as it runs once awaited. *)

From stdpp Require pretty.

Module CodeInterpreter.

(** The [file_name] argument of [save_file]: a string, or [Path(s)]. *)
Inductive FileName : Type :=
| Str (s : string)
| PathOf (s : string).

(** The calls on the client; [Enter] and [Exit] are those of the [with]
    statement. [create_agent] also gets the tool definitions and resources
    of a new [CodeInterpreterTool], which are the same in every call. *)
Inductive Call : Type :=
| Enter
| Exit
| ListAgents
| GetAgent (agent_id : string)
| CreateAgent (model name instructions : string)
| CreateThread
| CreateMessage (thread_id role content : string)
| CreateAndProcessRun (agent_id thread_id : string)
| ListMessages (thread_id : string)
| SaveFile (file_id : string) (file_name : FileName).

Record Agent : Type := mkAgent {
  id : string;
  name : option string
}.

(** The reply of [list_agents]: [len] is what [len(agents)] gives for the
    reply object, [data] is [agents.data]. *)
Record AgentList : Type := mkAgentList {
  len : nat;
  data : list Agent
}.

(** A file path annotation: [file_path.file_id] and [text]. *)
Record FilePathAnnotation : Type := mkAnnotation {
  file_id : string;
  text : string
}.

(** The reply of [list_messages], as far as it is read: the text messages
    (each as [print] shows its [as_dict()]), the file path annotations, and
    [image_file.file_id] of every image content. *)
Record ThreadMessages : Type := mkMessages {
  text_messages : list string;
  file_path_annotations : list FilePathAnnotation;
  image_contents : list string
}.

(** What the service replies, given the calls so far: an agent list, an
    agent ([get_agent], [create_agent]), the [id] of a new thread, the
    [status] of a run, the messages of a thread, or nothing of interest
    ([create_message], [save_file]). Any call may raise. *)
Record Service : Type := mkService {
  agents_reply : list Call → outcome AgentList;
  agent_reply : list Call → outcome Agent;
  thread_reply : list Call → outcome string;
  run_reply : list Call → outcome string;
  messages_reply : list Call → outcome ThreadMessages;
  done_reply : list Call → outcome unit
}.

Record World : Type := mkWorld {
  calls : list Call;
  console : list string
}.

Definition IO (A : Type) : Type := World → outcome A * World.

#[local] Instance IO_ret : MRet IO := λ A a w, (Ok a, w).
#[local] Instance IO_bind : MBind IO := λ A B f m w,
  match m w with
  | (Ok a, w') => f a w'
  | (Raise e, w') => (Raise e, w')
  end.

(** A call on the client and its reply. *)
Definition request {R : Type} (reply : list Call → outcome R) (c : Call) : IO R :=
  λ w, (reply (calls w ++ [c]),
        {| calls := calls w ++ [c]; console := console w |}).

(** [print(line)] *)
Definition echo (line : string) : IO unit :=
  λ w, (Ok (), {| calls := calls w; console := console w ++ [line] |}).

(** [__enter__] and [__exit__] of the client, which are taken to
    return. *)
Definition notify (c : Call) (w : World) : World :=
  {| calls := calls w ++ [c]; console := console w |}.

(** [for x in l: s = body(s, x)], for a loop that updates a local [s]. *)
Fixpoint for_each_with {A S : Type} (body : S → A → IO S) (l : list A) (s : S) : IO S :=
  match l with
  | [] => mret s
  | x :: l' => s' ← body s x; for_each_with body l' s'
  end.

Definition user_query : string :=
  "Could you please create a bar chart for the operating profit using the following data and provide the file to me? Bali: 100 Travelers, Paris: 356 Travelers, London: 900 Travelers, Tokyo: 850 Travellers".

Section program.

Variable service : Service.

(** [Path(s).name] *)
Variable path_name : string → string.

(** [agent.name == "code-interpreter-agent"] *)
Definition is_code_interpreter (agent : Agent) : bool :=
  bool_decide (name agent = Some "code-interpreter-agent").

(** Lines 28 to 50: the agent to run, fetched or created. *)
Definition code_interpreter_agent (agents : AgentList) : IO Agent :=
  let code_intepreter_agents := List.filter is_code_interpreter (data agents) in
  match code_intepreter_agents with
  | first :: _ =>
      echo ("Code interpreter agent already exists. Agent ID: " +:+ id first);;
      request (agent_reply service) (GetAgent (id first))
  | [] =>
      echo "No existing code interpreter agent found. Proceeding to create a new one.";;
      agent ← request (agent_reply service)
                (CreateAgent "gpt-4o-mini" "code-interpreter-agent"
                   "You are a helpful assistant, that can run code and visualize the results.");
      echo ("Agent created successfully. Agent ID: " +:+ id agent);;
      mret agent
  end.

(** Body of [for file_path_annotation in messages.file_path_annotations];
    the result is [saved_images] after the [append]. *)
Definition save_annotation (saved_images : list string)
    (file_path_annotation : FilePathAnnotation) : IO (list string) :=
  let file_name := path_name (text file_path_annotation) in
  echo ("Downloading file: " +:+ file_name);;
  request (done_reply service)
    (SaveFile (file_id file_path_annotation) (Str file_name));;
  echo ("File saved as: " +:+ file_name);;
  mret (saved_images ++ [file_name]).

(** Body of [for image_content in messages.image_contents]. *)
Definition save_image (saved_images : list string) (image_file_id : string)
    : IO (list string) :=
  let file_name := image_file_id +:+ "_image_file.png" in
  echo ("Downloading file: " +:+ file_name);;
  request (done_reply service) (SaveFile image_file_id (PathOf file_name));;
  echo ("File saved as: " +:+ file_name);;
  mret (saved_images ++ [file_name]).

(** Lines 81 to 117: what is done with the messages of the thread. *)
Definition download (messages : ThreadMessages) : IO unit :=
  for_each_with (λ _ text_message, echo text_message)
    (text_messages messages) ();;
  saved_images ← for_each_with save_annotation (file_path_annotations messages) [];
  echo "Downloading image files from the messages...";;
  saved_images ← for_each_with save_image (image_contents messages) saved_images;
  echo "All image files downloaded successfully.";;
  for_each_with (λ _ image, echo ("Image file: " +:+ image)) saved_images ().

(** Lines 26 to 117: the block of the [with] statement once the agents
    are listed. *)
Definition with_agents (agents : AgentList) : IO unit :=
  echo ("Total agents found: " +:+ pretty.pretty (len agents));;
  agent ← code_interpreter_agent agents;
  thread ← request (thread_reply service) CreateThread;
  request (done_reply service) (CreateMessage thread "user" user_query);;
  echo ("Executing the code interpreter agent with the user query: " +:+ user_query);;
  status ← request (run_reply service) (CreateAndProcessRun (id agent) thread);
  if String.eqb status "failed" then echo "Run failed."
  else
    (if String.eqb status "completed"
     then echo "Run completed successfully." else mret ());;
    messages ← request (messages_reply service) (ListMessages thread);
    download messages.

(** The block of the [with] statement. *)
Definition with_client : IO unit :=
  agents ← request (agents_reply service) ListAgents;
  with_agents agents.

(** [with project_client as client: ...]: the client is left also when
    the block raises or returns early. *)
Definition run_agent_with_visualization : IO unit :=
  λ w, let '(r, w') := with_client (notify Enter w) in (r, notify Exit w').

End program.

(** The calls that read the thread or write files. *)
Definition reads_or_saves (c : Call) : Prop :=
  match c with ListMessages _ | SaveFile _ _ => True | _ => False end.

(** The calls of the [with] statement itself. *)
Definition enters_or_exits (c : Call) : Prop :=
  match c with Enter | Exit => True | _ => False end.

(** The computation [m] only adds calls that satisfy [P], and a value it
    returns satisfies [Q]. *)
Definition adds {A : Type} (m : IO A) (P : Call → Prop) (Q : A → Prop) : Prop :=
  ∀ w, ∃ new,
    calls (m w).2 = calls w ++ new
    ∧ Forall P new
    ∧ ∀ a, (m w).1 = Ok a → Q a.

(** A value the computation [m] returns leaves a world that satisfies [R]. *)
Definition ends {A : Type} (m : IO A) (R : World → Prop) : Prop :=
  ∀ w a, (m w).1 = Ok a → R (m w).2.

(** For the agent list [agents]: a [get_agent] call asks for the first
    agent named "code-interpreter-agent" of the list, and a [create_agent]
    call is made only when the list has no agent of that name. *)
Definition agent_call_for (agents : AgentList) (c : Call) : Prop :=
  match c with
  | GetAgent i =>
      ∃ first rest,
        List.filter is_code_interpreter (data agents) = first :: rest
        ∧ i = id first
  | CreateAgent _ _ _ => List.filter is_code_interpreter (data agents) = []
  | _ => True
  end.

(** The two lines printed around a download of [file_name]. *)
Definition download_lines (names : list string) : list string :=
  names ≫= λ file_name,
    ["Downloading file: " +:+ file_name; "File saved as: " +:+ file_name].

(** The world after the calls [cs] and the lines [ls]. *)
Definition extend (cs : list Call) (ls : list string) (w : World) : World :=
  {| calls := calls w ++ cs; console := console w ++ ls |}.

(** The call that gets the agent for the list [agents]. *)
Definition agent_call (agents : AgentList) : Call :=
  match List.filter is_code_interpreter (data agents) with
  | first :: _ => GetAgent (id first)
  | [] =>
      CreateAgent "gpt-4o-mini" "code-interpreter-agent"
        "You are a helpful assistant, that can run code and visualize the results."
  end.

(** The [save_file] calls for the annotations and the images. *)
Definition annotation_saves (path_name : string → string)
    (l : list FilePathAnnotation) : list Call :=
  (λ a, SaveFile (file_id a) (Str (path_name (text a)))) <$> l.

Definition image_saves (l : list string) : list Call :=
  (λ i, SaveFile i (PathOf (i +:+ "_image_file.png"))) <$> l.

(** The names that go to [saved_images]. *)
Definition saved_names (path_name : string → string) (messages : ThreadMessages)
    : list string :=
  (path_name ∘ text <$> file_path_annotations messages)
  ++ ((λ i, i +:+ "_image_file.png") <$> image_contents messages).

(** A service for the examples: one agent of the right name, a run that
    ends as [status], one annotation and one image. *)
Definition sample_service (status : string) : Service :=
  {| agents_reply := λ _, Ok (mkAgentList 5
                                [ mkAgent "asst_1" (Some "other");
                                  mkAgent "asst_2" (Some "code-interpreter-agent") ]);
     agent_reply := λ _, Ok (mkAgent "asst_2" (Some "code-interpreter-agent"));
     thread_reply := λ _, Ok "thread_1";
     run_reply := λ _, Ok status;
     messages_reply := λ _, Ok (mkMessages ["{'type': 'text'}"]
                                  [mkAnnotation "file_1" "sandbox:/mnt/data/chart.png"]
                                  ["file_2"]);
     done_reply := λ _, Ok () |}.

(** The last component of a path written with "/", for the examples. *)
Fixpoint last_component (acc s : string) : string :=
  match s with
  | EmptyString => acc
  | String c s' =>
      if Ascii.eqb c "/" then last_component "" s'
      else last_component (acc +:+ String c "") s'
  end.

Definition start : World := {| calls := []; console := [] |}.

End CodeInterpreter.

(** ** Sanity checks of the model *)

Example book_flight_runs :
  (BookTravelPlugin.book_flight "2024-05-10" "Paris, France" DestinationPlugin.init).1
  = Ok "Flight booked to Paris, France on 2024-05-10.".
Proof. reflexivity. Qed.

Example first_suggestion :
  (DestinationPlugin.get_random_destination 13 DestinationPlugin.init).1
  = Ok "Tokyo, Japan".
Proof. reflexivity. Qed.

Example two_suggestions :
  (DestinationPlugin.invoke_each [13; 3] DestinationPlugin.init).1
  = [Ok "Tokyo, Japan"; Ok "Sydney, Australia"].
Proof. reflexivity. Qed.

(** With a duplicate in the list, [remove] leaves the second occurrence and
    the same destination can come twice in a row. *)
Example duplicate_destination_repeats :
  (DestinationPlugin.invoke_each [0; 0]
     (DestinationPlugin.init_with ["Oslo"; "Oslo"; "Rome"])).1
  = [Ok "Oslo"; Ok "Oslo"].
Proof. reflexivity. Qed.

Example reply_with_calls_aggregated :
  let acc := aggregate Samples.reply_with_calls in
  agent_name acc = Some "TravelAgent"
  ∧ full_response acc = "Sure, how about Bali?"
  ∧ function_calls acc
    = [ "Calling: get_random_destination({})"; "Result: Paris, France";
        "Calling: book_flight({})"; "Result: Bali, Indonesia" ]
  ∧ function_results acc !! "get_random_destination" = Some "Bali, Indonesia"
  ∧ function_results acc !! "book_flight" = None.
Proof. by vm_compute. Qed.

(** A content that carries a function call gives no text, whatever its
    [content] attribute holds. *)
Example text_beside_call_skipped :
  full_response
    (aggregate
       [ mkContent (Some (Some "TravelAgent")) (Some (Some "Let me look."))
           [FunctionCallContent "get_random_destination" "{}"] ])
  = "".
Proof. reflexivity. Qed.

Example strip_example :
  PyStr.strip (" Bali? " +:+ PyStr.newline) = "Bali?"
  ∧ PyStr.strip (" " +:+ PyStr.newline) = "".
Proof. by vm_compute. Qed.

(** ** Python lists: membership and [remove] *)

Section py_list.

Implicit Types (s x : string) (l ds : list string).

Lemma contains_elem_of s l : PyList.contains (Some s) l = true ↔ s ∈ l.
Proof.
  simpl. rewrite existsb_exists. split.
  - intros (y & Hy & ->%String.eqb_eq). by apply list_elem_of_In.
  - intros Hs. exists s. split; [by apply list_elem_of_In | apply String.eqb_refl].
Qed.

Lemma remove_None s l : PyList.remove s l = None ↔ s ∉ l.
Proof.
  induction l as [|y l IH]; simpl.
  - split; [intros _; apply not_elem_of_nil | done].
  - destruct (String.eqb_spec y s) as [->|Hne].
    + split; [done | intros []; left].
    + rewrite fmap_None, IH, not_elem_of_cons.
      split; [by intros ?; split | by intros []].
Qed.

Lemma remove_Some_elem_of s x l l' :
  PyList.remove s l = Some l' → x ∈ l' → x ∈ l.
Proof.
  revert l'. induction l as [|y l IH]; intros l'; simpl; [done|].
  destruct (String.eqb_spec y s) as [->|Hne].
  - intros [= ->] ?. by right.
  - destruct (PyList.remove s l) as [l0|]; simpl; [|done].
    intros [= <-] [->|?]%elem_of_cons; [left | right; eauto].
Qed.

Lemma remove_Some_length s l l' :
  PyList.remove s l = Some l' → length l = S (length l').
Proof.
  revert l'. induction l as [|y l IH]; intros l'; simpl; [done|].
  destruct (String.eqb_spec y s) as [->|Hne].
  - by intros [= ->].
  - destruct (PyList.remove s l) as [l0|]; simpl; [|done].
    intros [= <-]. simpl. f_equal. by apply IH.
Qed.

(** On a list without duplicates, removing the first occurrence removes
    the element. *)
Lemma remove_Some_NoDup s l l' :
  NoDup l → PyList.remove s l = Some l' → s ∉ l'.
Proof.
  revert l'. induction l as [|y l IH]; intros l' Hnd; simpl; [done|].
  apply NoDup_cons in Hnd as [Hy Hnd].
  destruct (String.eqb_spec y s) as [->|Hne].
  - by intros [= ->].
  - destruct (PyList.remove s l) as [l0|]; simpl; [|done].
    intros [= <-]. rewrite not_elem_of_cons. split; [done | by apply IH].
Qed.

Lemma available_elem_of (latest : option string) ds x :
  x ∈ available latest ds → x ∈ ds.
Proof.
  destruct latest as [s|]; simpl; [|done].
  destruct (PyList.remove s ds) as [l'|] eqn:Hr; simpl; [|done].
  by apply (remove_Some_elem_of s).
Qed.

Lemma available_length (latest : option string) ds :
  length ds ≤ S (length (available latest ds)).
Proof.
  destruct latest as [s|]; simpl; [|lia].
  destruct (PyList.remove s ds) as [l'|] eqn:Hr; simpl; [|lia].
  apply remove_Some_length in Hr. lia.
Qed.

Lemma available_nil (latest : option string) ds :
  available latest ds = [] ↔ ds = [] ∨ ∃ d, ds = [d] ∧ latest = Some d.
Proof.
  split.
  - destruct latest as [s|]; simpl; [|by left].
    destruct ds as [|y ds]; [by left|]. simpl.
    destruct (String.eqb_spec y s) as [->|Hne].
    + simpl. intros ->. right. by exists s.
    + by destruct (PyList.remove s ds).
  - intros [->|(d & -> & ->)]; [by destruct latest|].
    simpl. by rewrite String.eqb_refl.
Qed.

Lemma available_not_latest (latest : option string) ds x :
  NoDup ds → x ∈ available latest ds → latest ≠ Some x.
Proof.
  intros Hnd Hx ->. simpl in Hx.
  destruct (PyList.remove x ds) as [l'|] eqn:Hr; simpl in Hx.
  - by apply (remove_Some_NoDup x ds l').
  - by apply remove_None in Hr.
Qed.

Lemma available_choice (draw : nat) (av : list string) :
  av ≠ [] → ∃ x, av !! (draw mod length av) = Some x ∧ x ∈ av.
Proof.
  intros Hav.
  assert (draw mod length av < length av) as Hlt.
  { apply Nat.mod_upper_bound. by destruct av. }
  apply lookup_lt_is_Some in Hlt as [x Hx].
  exists x. split; [done | by eapply list_elem_of_lookup_2].
Qed.

End py_list.

(** ** The monad: how a bind runs *)

Lemma bind_Ok {A B : Type} (m : M A) (f : A → M B) (σ σ' : Store) (a : A) :
  m σ = (Ok a, σ') → (m ≫= f) σ = f a σ'.
Proof. unfold mbind, M_bind. by intros ->. Qed.

Lemma bind_Raise {A B : Type} (m : M A) (f : A → M B) (σ σ' : Store) (e : string) :
  m σ = (Raise e, σ') → (m ≫= f) σ = (Raise e, σ').
Proof. unfold mbind, M_bind. by intros ->. Qed.

(** ** One invocation of [get_random_destination], step by step *)

Section destination_run.

Implicit Types (σ : Store) (ds av : list string).

Lemma deref_run (l : nat) σ (xs : list string) :
  lists σ !! l = Some xs → deref l σ = (Ok xs, σ).
Proof. unfold deref. by intros ->. Qed.

Lemma deref_copy σ av :
  deref (length (lists σ)) (with_copy σ av) = (Ok av, with_copy σ av).
Proof. apply deref_run. simpl. by apply list_lookup_middle. Qed.

Lemma list_copy_run (l : nat) σ (xs : list string) :
  lists σ !! l = Some xs →
  list_copy l σ = (Ok (length (lists σ)), with_copy σ xs).
Proof.
  intros Hl. unfold list_copy.
  by rewrite (bind_Ok _ _ _ _ _ (deref_run _ _ _ Hl)).
Qed.

Lemma list_contains_copy (x : option string) σ av :
  list_contains x (length (lists σ)) (with_copy σ av)
  = (Ok (PyList.contains x av), with_copy σ av).
Proof.
  unfold list_contains. by rewrite (bind_Ok _ _ _ _ _ (deref_copy _ _)).
Qed.

Lemma list_remove_copy (s : string) σ av (av' : list string) :
  PyList.remove s av = Some av' →
  list_remove (length (lists σ)) (Some s) (with_copy σ av)
  = (Ok (), with_copy σ av').
Proof.
  intros Hr. unfold list_remove.
  rewrite (bind_Ok _ _ _ _ _ (deref_copy _ _)). simpl. rewrite Hr.
  unfold assign, with_copy. simpl.
  by rewrite insert_app_r_alt, Nat.sub_diag by lia.
Qed.

Lemma random_choice_copy (draw : nat) σ av :
  random_choice draw (length (lists σ)) (with_copy σ av)
  = match av !! (draw mod length av) with
    | Some x => (Ok x, with_copy σ av)
    | None => (Raise "IndexError", with_copy σ av)
    end.
Proof.
  unfold random_choice. rewrite (bind_Ok _ _ _ _ _ (deref_copy _ _)).
  destruct av as [|d av]; [done|].
  by destruct ((d :: av) !! (draw mod length (d :: av))).
Qed.

(** The copy after the guarded [remove]: the guard makes [remove] safe. *)
Lemma guarded_remove_copy (latest : option string) σ ds :
  (if PyList.contains latest ds
   then list_remove (length (lists σ)) latest
   else mret ()) (with_copy σ ds)
  = (Ok (), with_copy σ (available latest ds)).
Proof.
  destruct latest as [s|]; [|done].
  destruct (PyList.contains (Some s) ds) eqn:Hin.
  - apply contains_elem_of in Hin.
    destruct (PyList.remove s ds) as [ds'|] eqn:Hr;
      [|by apply remove_None in Hr].
    unfold available. rewrite Hr. by apply list_remove_copy.
  - assert (PyList.remove s ds = None) as Hr.
    { apply remove_None. rewrite <-contains_elem_of. by rewrite Hin. }
    unfold available. by rewrite Hr.
Qed.

Lemma get_random_destination_run (draw : nat) σ ds :
  holds σ ds →
  DestinationPlugin.get_random_destination draw σ =
    let av := available (latest_destination (self σ)) ds in
    match av !! (draw mod length av) with
    | Some x => (Ok x, suggested σ av x)
    | None => (Raise "IndexError", with_copy σ av)
    end.
Proof.
  intros Hds. unfold DestinationPlugin.get_random_destination.
  rewrite (bind_Ok get_self _ σ σ (self σ)) by done.
  rewrite (bind_Ok _ _ _ _ _ (list_copy_run _ _ _ Hds)).
  rewrite (bind_Ok _ _ _ _ _ (list_contains_copy _ _ _)).
  rewrite (bind_Ok _ _ _ _ _ (guarded_remove_copy _ _ _)).
  simpl. unfold mbind at 1, M_bind at 1. rewrite random_choice_copy.
  by destruct (_ !! _).
Qed.

(** Without a destination list there is nothing to copy: the store stays
    as it is. *)
Lemma get_random_destination_dangling (draw : nat) σ :
  lists σ !! destinations (self σ) = None →
  DestinationPlugin.get_random_destination draw σ = (Raise dangling, σ).
Proof.
  intros Hnone. unfold DestinationPlugin.get_random_destination.
  rewrite (bind_Ok get_self _ σ σ (self σ)) by done.
  apply bind_Raise. unfold list_copy. apply bind_Raise.
  unfold deref. by rewrite Hnone.
Qed.

Lemma holds_with_copy σ ds av : holds σ ds → holds (with_copy σ av) ds.
Proof. unfold holds. simpl. intros H. by apply lookup_app_l_Some. Qed.

Lemma holds_suggested σ ds av (x : string) :
  holds σ ds → holds (suggested σ av x) ds.
Proof. unfold holds. simpl. intros H. by apply lookup_app_l_Some. Qed.

(** The two ways an invocation ends. *)
Lemma get_random_destination_cases (draw : nat) σ ds :
  holds σ ds →
  let av := available (latest_destination (self σ)) ds in
  (av = [] ∧
   DestinationPlugin.get_random_destination draw σ
   = (Raise "IndexError", with_copy σ av))
  ∨ (∃ x, x ∈ av ∧
     DestinationPlugin.get_random_destination draw σ = (Ok x, suggested σ av x)).
Proof.
  intros Hds. cbv zeta. rewrite (get_random_destination_run _ _ _ Hds). cbv zeta.
  generalize (available (latest_destination (self σ)) ds). intros [|d av]; [by left|].
  right. destruct (available_choice draw (d :: av)) as (x & Hx & Hin); [done|].
  exists x. split; [done|]. by rewrite Hx.
Qed.

End destination_run.

(** ** The plugins: what an invocation returns and what it leaves behind *)

Module BookTravelFacts.

(** C7. For all strings [date] and [location], the empty ones included,
    [book_flight] returns exactly "Flight booked to {location} on {date}."
    with both arguments put in verbatim, and leaves the store as it found
    it; for "2024-05-10" and "Paris, France" the result is
    "Flight booked to Paris, France on 2024-05-10.". *)
Theorem book_flight_confirmation (date location : string) (σ : Store) :
  BookTravelPlugin.book_flight date location σ
  = (Ok ("Flight booked to " +:+ location +:+ " on " +:+ date +:+ "."), σ)
  ∧ BookTravelPlugin.book_flight "2024-05-10" "Paris, France" σ
    = (Ok "Flight booked to Paris, France on 2024-05-10.", σ).
Proof. by split. Qed.

End BookTravelFacts.

Module DestinationFacts.

Import DestinationPlugin Samples.

Implicit Types (σ : Store) (ds av : list string).

Lemma no_repeat_from_consecutive (prev : option string) (outs : list string) :
  no_repeat_from prev outs → no_consecutive_repeat outs.
Proof.
  revert prev. induction outs as [|x outs IH]; intros prev; simpl.
  - intros _ i a b Ha. by rewrite lookup_nil in Ha.
  - intros [_ Hrest] [|i] a b; simpl.
    + intros [= ->] Hb. destruct outs as [|y outs]; simplify_eq/=.
      destruct Hrest as [Hne _]. congruence.
    + by apply (IH (Some x)).
Qed.

(** With two or more destinations, all different, every invocation of a
    series returns, and never the value that came just before. *)
Lemma invoke_each_no_repeat ds (draws : list nat) σ :
  NoDup ds → 2 ≤ length ds → holds σ ds →
  ∃ outs σ',
    invoke_each draws σ = (Ok <$> outs, σ')
    ∧ length outs = length draws
    ∧ holds σ' ds
    ∧ no_repeat_from (latest_destination (self σ)) outs.
Proof.
  intros Hnd Hlen. revert σ.
  induction draws as [|r draws IH]; intros σ Hds; simpl.
  - by exists [], σ.
  - destruct (get_random_destination_cases r σ ds Hds) as [[Hnil _]|(x & Hx & ->)].
    + pose proof (available_length (latest_destination (self σ)) ds) as Hav.
      rewrite Hnil in Hav. simpl in Hav. lia.
    + destruct (IH (suggested σ (available (latest_destination (self σ)) ds) x))
        as (outs & σ' & -> & Hn & Hds' & Hchain).
      { by apply holds_suggested. }
      exists (x :: outs), σ'. simpl. repeat split; [by f_equal | done | | done].
      by apply (available_not_latest _ ds).
Qed.

(** C2 (as the code has it). An invocation whose available list (the
    destinations without the latest one) is empty raises IndexError, the
    exception of [random.choice]; this happens only with at most one
    destination, and IndexError is the only exception an invocation raises.
    With a single destination the first invocation returns it and the
    second raises IndexError. *)
Theorem empty_available_raises_IndexError (draw : nat) σ ds :
  holds σ ds →
  let out := (get_random_destination draw σ).1 in
  (available (latest_destination (self σ)) ds = [] →
     out = Raise "IndexError" ∧ length ds ≤ 1)
  ∧ (∀ e, out = Raise e →
       e = "IndexError" ∧ available (latest_destination (self σ)) ds = [])
  ∧ (∀ d r1 r2,
       (invoke_each [r1; r2] (init_with [d])).1 = [Ok d; Raise "IndexError"]).
Proof.
  intros Hds. cbv zeta. split; [|split].
  - intros Hnil. rewrite (get_random_destination_run _ _ _ Hds). cbv zeta.
    rewrite Hnil. split; [done|].
    apply available_nil in Hnil as [->|(d & -> & _)]; simpl; lia.
  - intros e.
    destruct (get_random_destination_cases draw σ ds Hds) as [[Hnil ->]|(x & _ & ->)];
      simpl; [|done].
    by intros [= <-].
  - intros d r1 r2. cbn [invoke_each].
    rewrite (get_random_destination_run r1 (init_with [d]) [d]) by done.
    cbn [available init_with self latest_destination length].
    rewrite Nat.mod_1_r. cbn [lookup list_lookup].
    rewrite (get_random_destination_run r2 _ [d]) by done.
    simpl. by rewrite String.eqb_refl.
Qed.

Lemma empty_available_raises_IndexError_witness :
  (available (Some "Paris, France") ["Paris, France"] = [] →
     (get_random_destination 4 only_paris).1 = Raise "IndexError"
     ∧ length ["Paris, France"] ≤ 1)
  ∧ (∀ e, (get_random_destination 4 only_paris).1 = Raise e →
       e = "IndexError"
       ∧ available (Some "Paris, France") ["Paris, France"] = [])
  ∧ (∀ d r1 r2,
       (invoke_each [r1; r2] (init_with [d])).1 = [Ok d; Raise "IndexError"]).
Proof.
  apply (empty_available_raises_IndexError 4 only_paris ["Paris, France"]).
  reflexivity.
Defined.

(** C2, as stated, fails: with the single destination "Paris, France" the
    second invocation raises IndexError, not NoAvailableDestinationError. *)
Lemma second_invocation_not_NoAvailableDestinationError :
  (invoke_each [0; 0] (init_with ["Paris, France"])).1 !! 1
  = Some (Raise "IndexError")
  ∧ (invoke_each [0; 0] (init_with ["Paris, France"])).1 !! 1
    ≠ Some (Raise "NoAvailableDestinationError").
Proof. split; [reflexivity | discriminate]. Qed.

(** C3 (as the code has it). On a plugin whose list of destinations has at
    least two elements and no element twice, every invocation of a series
    of any length returns a destination, and no two consecutive returned
    values are equal. *)
Theorem consecutive_destinations_differ σ ds (draws : list nat) :
  holds σ ds → NoDup ds → 2 ≤ length ds →
  ∃ outs,
    (invoke_each draws σ).1 = Ok <$> outs
    ∧ length outs = length draws
    ∧ no_consecutive_repeat outs.
Proof.
  intros Hds Hnd Hlen.
  destruct (invoke_each_no_repeat ds draws σ Hnd Hlen Hds)
    as (outs & σ' & -> & Hn & _ & Hchain).
  exists outs. repeat split; [done|].
  by apply (no_repeat_from_consecutive (latest_destination (self σ))).
Qed.

Lemma vacation_destinations_NoDup : NoDup vacation_destinations.
Proof. apply (bool_decide_unpack _). by vm_compute. Qed.

Lemma consecutive_destinations_differ_witness :
  ∃ outs,
    (invoke_each [13; 3; 7; 7] init).1 = Ok <$> outs
    ∧ length outs = length [13; 3; 7; 7]
    ∧ no_consecutive_repeat outs.
Proof.
  apply (consecutive_destinations_differ init vacation_destinations [13; 3; 7; 7]).
  - reflexivity.
  - exact vacation_destinations_NoDup.
  - simpl. lia.
Defined.

(** C3, as stated, fails: the list "Oslo", "Oslo", "Rome" has two different
    destinations, yet two invocations in a row return "Oslo", since
    [remove] drops only the first occurrence of the latest destination. *)
Lemma duplicate_destination_suggested_twice :
  holds (init_with ["Oslo"; "Oslo"; "Rome"]) ["Oslo"; "Oslo"; "Rome"]
  ∧ "Oslo" ∈ ["Oslo"; "Oslo"; "Rome"]
  ∧ "Rome" ∈ ["Oslo"; "Oslo"; "Rome"]
  ∧ "Oslo" ≠ "Rome"
  ∧ (invoke_each [0; 0] (init_with ["Oslo"; "Oslo"; "Rome"])).1
    = Ok <$> ["Oslo"; "Oslo"]
  ∧ ¬ no_consecutive_repeat ["Oslo"; "Oslo"].
Proof.
  split; [reflexivity|].
  split; [by apply (list_elem_of_lookup_2 _ 0)|].
  split; [by apply (list_elem_of_lookup_2 _ 2)|].
  split; [discriminate|]. split; [reflexivity|].
  intros Hdiffer. by apply (Hdiffer 0 "Oslo" "Oslo").
Qed.

(** C9. An invocation, whether it returns or raises, leaves the plugin's
    [destinations] attribute pointing to the same list object with the same
    elements: [remove] works on the copy, a new object. Every list object
    there was is unchanged, and so is the chat history. *)
Theorem destinations_unchanged (draw : nat) σ :
  let σ' := (get_random_destination draw σ).2 in
  destinations (self σ') = destinations (self σ)
  ∧ lists σ' !! destinations (self σ') = lists σ !! destinations (self σ)
  ∧ lists σ `prefix_of` lists σ'
  ∧ chat_history σ' = chat_history σ.
Proof.
  cbv zeta. destruct (lists σ !! destinations (self σ)) as [ds|] eqn:Hds.
  - destruct (get_random_destination_cases draw σ ds Hds) as [[_ ->]|(x & _ & ->)];
      simpl; (repeat split; [by apply lookup_app_l_Some | by apply prefix_app_r]).
  - rewrite (get_random_destination_dangling _ _ Hds). simpl. by rewrite Hds.
Qed.

(** C10. An invocation that returns [v] leaves [latest_destination] equal
    to [v], and [v] is one of the destinations: the first invocation that
    returns establishes this, and every later invocation, returning or
    raising, keeps [latest_destination] among the destinations. *)
Theorem latest_is_returned_destination (draw : nat) σ ds :
  holds σ ds →
  (∀ v σ', get_random_destination draw σ = (Ok v, σ') →
     latest_destination (self σ') = Some v ∧ v ∈ ds
     ∧ suggestion_invariant σ' ds)
  ∧ (suggestion_invariant σ ds →
     suggestion_invariant (get_random_destination draw σ).2 ds).
Proof.
  intros Hds.
  destruct (get_random_destination_cases draw σ ds Hds) as [[_ ->]|(x & Hx & ->)].
  - split; [done|]. intros [_ Hlatest]. simpl.
    split; [by apply holds_with_copy | done].
  - apply available_elem_of in Hx.
    assert (suggestion_invariant
              (suggested σ (available (latest_destination (self σ)) ds) x) ds).
    { split; [by apply holds_suggested | by exists x]. }
    split; [|done]. by intros v σ' [= <- <-].
Qed.

Lemma latest_is_returned_destination_witness :
  (∀ v σ', get_random_destination 13 init = (Ok v, σ') →
     latest_destination (self σ') = Some v ∧ v ∈ vacation_destinations
     ∧ suggestion_invariant σ' vacation_destinations)
  ∧ (suggestion_invariant init vacation_destinations →
     suggestion_invariant (get_random_destination 13 init).2 vacation_destinations).
Proof.
  apply (latest_is_returned_destination 13 init vacation_destinations).
  reflexivity.
Defined.

End DestinationFacts.

(** ** Python strings: concatenation and [strip] *)

Section py_str.

Import PyStr.

Implicit Types (s t : string).

Lemma str_app_nil_r s : s +:+ "" = s.
Proof.
  induction s as [|c s IH]; [done|].
  change (String c s +:+ "") with (String c (s +:+ "")). by rewrite IH.
Qed.

Lemma str_app_assoc s t (u : string) : (s +:+ t) +:+ u = s +:+ (t +:+ u).
Proof.
  induction s as [|c s IH]; [done|].
  change ((String c s +:+ t) +:+ u) with (String c ((s +:+ t) +:+ u)).
  by rewrite IH.
Qed.

Lemma join_snoc (l : list string) s : join (l ++ [s]) = join l +:+ s.
Proof.
  unfold join. induction l as [|x l IH]; simpl.
  - apply str_app_nil_r.
  - by rewrite IH, str_app_assoc.
Qed.

Lemma prefix_app s t : String.prefix s (s +:+ t) = true.
Proof.
  induction s as [|c s IH]; [by destruct t|].
  change (String c s +:+ t) with (String c (s +:+ t)). simpl.
  by destruct (ascii_dec c c).
Qed.

Lemma blank_truthy s : blank s = false → truthy s = true.
Proof. by destruct s. Qed.

Lemma blank_lstrip s : blank (lstrip s) = blank s.
Proof.
  induction s as [|c s IH]; [done|]. simpl.
  destruct (isspace c) eqn:Hc; simpl; [done | by rewrite Hc].
Qed.

Lemma truthy_lstrip s : truthy (lstrip s) = negb (blank s).
Proof.
  induction s as [|c s IH]; [done|]. simpl.
  by destruct (isspace c) eqn:Hc.
Qed.

Lemma blank_rev_app s t : blank (String.rev_app s t) = blank s && blank t.
Proof.
  revert t. induction s as [|c s IH]; intros t; [done|]. simpl.
  rewrite IH. simpl. by destruct (isspace c), (blank s), (blank t).
Qed.

Lemma blank_rev s : blank (String.rev s) = blank s.
Proof. unfold String.rev. rewrite blank_rev_app. simpl. apply andb_true_r. Qed.

Lemma truthy_rev_app s t : truthy (String.rev_app s t) = truthy s || truthy t.
Proof.
  revert t. induction s as [|c s IH]; intros t; [done|]. simpl.
  rewrite IH. simpl. apply orb_true_r.
Qed.

Lemma truthy_rev s : truthy (String.rev s) = truthy s.
Proof. unfold String.rev. rewrite truthy_rev_app. simpl. apply orb_false_r. Qed.

(** [s.strip()] is non-empty exactly when [s] has a character that is not
    white space. *)
Lemma truthy_strip s : truthy (strip s) = negb (blank s).
Proof.
  unfold strip, rstrip.
  by rewrite truthy_rev, truthy_lstrip, blank_rev, blank_lstrip.
Qed.

Lemma truthy_and_strip s : truthy s && truthy (strip s) = negb (blank s).
Proof.
  rewrite truthy_strip. destruct (blank s) eqn:Hb; simpl.
  - apply andb_false_r.
  - by rewrite (blank_truthy s Hb).
Qed.

End py_str.

(** ** The loop of one turn, field by field *)

Section aggregation.

Import PyStr.

Context {V : Type} `{!Format V}.

Implicit Types (acc : TurnLocals V) (item : Item V) (its : list (Item V))
  (c : StreamingChatMessageContent V) (stream : list (StreamingChatMessageContent V)).

Lemma call_info_is_call_line (fn : string) (args : V) :
  is_call_line (call_info fn args) = true.
Proof. apply prefix_app. Qed.

Lemma result_info_not_call_line (res : V) :
  is_call_line (result_info res) = false.
Proof. by vm_compute. Qed.

(** *** The inner loop over the items *)

Lemma track_agent_name acc its :
  agent_name (foldl track acc its) = agent_name acc.
Proof.
  revert acc. induction its as [|item its IH]; intros acc; [done|].
  simpl. rewrite IH. by destruct item.
Qed.

Lemma track_full_response acc its :
  full_response (foldl track acc its) = full_response acc.
Proof.
  revert acc. induction its as [|item its IH]; intros acc; [done|].
  simpl. rewrite IH. by destruct item.
Qed.

Lemma track_function_calls acc its :
  function_calls (foldl track acc its) = function_calls acc ++ omap log_line its.
Proof.
  revert acc. induction its as [|item its IH]; intros acc; simpl.
  - by rewrite app_nil_r.
  - rewrite IH. destruct item; simpl; [by rewrite <-app_assoc..|done].
Qed.

Lemma track_function_results acc its (fn : string) :
  function_results (foldl track acc its) !! fn
  = from_option Some (function_results acc !! fn) (last (results_named fn its)).
Proof.
  induction its as [|item its IH] using rev_ind; [done|].
  rewrite foldl_snoc. unfold results_named in *. rewrite omap_app.
  destruct item as [fn' args|fn' res|text]; simpl.
  - by rewrite app_nil_r.
  - destruct (String.eqb_spec fn' fn) as [->|Hne]; simpl.
    + by rewrite lookup_insert_eq, last_snoc.
    + by rewrite lookup_insert_ne, app_nil_r.
  - by rewrite app_nil_r.
Qed.

(** *** One content *)

Lemma collect_agent_name acc c :
  agent_name (collect acc c)
  = if truthy_opt (agent_name acc) then agent_name acc
    else default (agent_name acc) (name c).
Proof.
  unfold collect.
  destruct (response_text c); simpl; rewrite track_agent_name;
    by destruct (name c), (truthy_opt (agent_name acc)).
Qed.

Lemma collect_full_response acc c :
  full_response (collect acc c)
  = full_response acc +:+ default "" (response_text c).
Proof.
  unfold collect.
  destruct (response_text c) as [s|]; cbn [default from_option full_response];
    rewrite track_full_response, ?str_app_nil_r;
    by destruct (name c), (truthy_opt (agent_name acc)).
Qed.

Lemma collect_function_calls acc c :
  function_calls (collect acc c) = function_calls acc ++ omap log_line (items c).
Proof.
  unfold collect.
  destruct (response_text c); simpl; rewrite track_function_calls;
    by destruct (name c), (truthy_opt (agent_name acc)).
Qed.

Lemma collect_function_results acc c (fn : string) :
  function_results (collect acc c) !! fn
  = from_option Some (function_results acc !! fn)
      (last (results_named fn (items c))).
Proof.
  unfold collect.
  destruct (response_text c); simpl; rewrite track_function_results;
    by destruct (name c), (truthy_opt (agent_name acc)).
Qed.

(** *** The whole stream *)

Lemma aggregate_snoc stream c :
  aggregate (stream ++ [c]) = collect (aggregate stream) c.
Proof. unfold aggregate. apply foldl_snoc. Qed.

Lemma all_items_snoc stream c : all_items (stream ++ [c]) = all_items stream ++ items c.
Proof. unfold all_items. rewrite bind_app. simpl. by rewrite app_nil_r. Qed.

Lemma aggregate_function_calls stream :
  function_calls (aggregate stream) = omap log_line (all_items stream).
Proof.
  induction stream as [|c stream IH] using rev_ind; [done|].
  by rewrite aggregate_snoc, collect_function_calls, IH, all_items_snoc, omap_app.
Qed.

Lemma aggregate_function_results stream (fn : string) :
  function_results (aggregate stream) !! fn
  = last (results_named fn (all_items stream)).
Proof.
  induction stream as [|c stream IH] using rev_ind; [done|].
  rewrite aggregate_snoc, collect_function_results, IH, all_items_snoc.
  unfold results_named. rewrite omap_app, last_app.
  by destruct (last (omap _ (items c))).
Qed.

Lemma aggregate_full_response stream :
  full_response (aggregate stream) = join (omap response_text stream).
Proof.
  induction stream as [|c stream IH] using rev_ind; [done|].
  rewrite aggregate_snoc, collect_full_response, IH, omap_app. simpl.
  destruct (response_text c); simpl.
  - by rewrite join_snoc.
  - by rewrite app_nil_r, str_app_nil_r.
Qed.

Lemma call_lines_of_log its :
  List.filter is_call_line (omap log_line its)
  = (λ p, call_info p.1 p.2) <$> requests its.
Proof.
  unfold requests. induction its as [|item its IH]; [done|].
  destruct item as [fn args|fn res|text]; cbn -[is_call_line call_info result_info].
  - rewrite call_info_is_call_line. by f_equal.
  - by rewrite result_info_not_call_line.
  - done.
Qed.

(** What a content without function items adds to [full_response]. *)
Lemma response_text_call_free c :
  call_free c →
  response_text c = if blank (text_delta c) then None else Some (text_delta c).
Proof.
  unfold call_free, response_text, text_delta. intros ->.
  destruct (content c) as [[s|]|]; [|done..].
  rewrite andb_true_r, truthy_and_strip. by destruct (blank s).
Qed.

Lemma call_free_no_log c : call_free c → omap log_line (items c) = [].
Proof.
  unfold call_free. induction (items c) as [|item its IH]; [done|].
  simpl. by destruct item.
Qed.

(** *** The agent name *)

Lemma agent_name_unset acc c :
  truthy_opt (agent_name acc) = false → identifying_name c = None →
  truthy_opt (agent_name (collect acc c)) = false.
Proof.
  intros Hacc. rewrite collect_agent_name, Hacc. unfold identifying_name.
  destruct (name c) as [[n|]|]; simpl; [|done..].
  by destruct (truthy n).
Qed.

Lemma agent_name_set acc c (n : string) :
  truthy_opt (agent_name acc) = false → identifying_name c = Some n →
  agent_name (collect acc c) = Some n.
Proof.
  intros Hacc. rewrite collect_agent_name, Hacc. unfold identifying_name.
  destruct (name c) as [[n'|]|]; simpl; [|done..].
  destruct (truthy n'); [|done]. by intros [= ->].
Qed.

Lemma agent_name_kept acc stream :
  truthy_opt (agent_name acc) = true →
  agent_name (foldl collect acc stream) = agent_name acc.
Proof.
  intros Hacc. induction stream as [|c stream IH] using rev_ind; [done|].
  by rewrite foldl_snoc, collect_agent_name, IH, Hacc.
Qed.

Lemma agent_name_unset_all stream :
  Forall (λ c, identifying_name c = None) stream →
  truthy_opt (agent_name (aggregate stream)) = false.
Proof.
  induction stream as [|c stream IH] using rev_ind; [done|].
  intros [Hs Hc]%Forall_app.
  rewrite aggregate_snoc. apply agent_name_unset; [by apply IH|].
  exact (Forall_inv Hc).
Qed.

End aggregation.

(** ** The aggregated turn *)

Section turn_result.

Import PyStr.

Context {V : Type} `{!Format V}.

Implicit Types (item : Item V) (its : list (Item V))
  (c : StreamingChatMessageContent V) (stream : list (StreamingChatMessageContent V)).

Lemma results_named_elem_of (fn : string) (res : V) its :
  res ∈ results_named fn its ↔ FunctionResultContent fn res ∈ its.
Proof.
  unfold results_named. rewrite list_elem_of_omap. split.
  - intros (item & Hin & Hitem). destruct item as [?|fn' res'|?]; [done| |done].
    destruct (String.eqb_spec fn' fn) as [->|]; [|done]. by simplify_eq.
  - intros Hin. exists (FunctionResultContent fn res). split; [done|].
    by rewrite String.eqb_refl.
Qed.

Lemma call_free_responses stream :
  Forall call_free stream →
  omap response_text stream
  = List.filter (λ d, negb (blank d)) (text_delta <$> stream).
Proof.
  induction 1 as [|c stream Hc _ IH]; [done|].
  cbn [fmap list_fmap List.filter omap list_omap].
  change (list_omap _ _ response_text stream) with (omap response_text stream).
  change (list_fmap _ _ text_delta stream) with (text_delta <$> stream).
  rewrite (response_text_call_free c Hc), IH.
  by destruct (blank (text_delta c)).
Qed.

Lemma call_free_log stream :
  Forall call_free stream → omap log_line (all_items stream) = [].
Proof.
  induction 1 as [|c stream Hc _ IH]; [done|].
  unfold all_items in *. rewrite bind_cons, omap_app, IH.
  by rewrite (call_free_no_log c Hc).
Qed.

(** C4 (as the code has it). For a stream in which no content carries a
    function call or a function result, [full_response] is the
    concatenation, in arrival order, of the text deltas that have a
    character other than white space (a delta of white space only is left
    out), and [function_calls] is empty. *)
Theorem call_free_full_response stream :
  Forall call_free stream →
  full_response (aggregate stream)
  = join (List.filter (λ d, negb (blank d)) (text_delta <$> stream))
  ∧ function_calls (aggregate stream) = [].
Proof.
  intros Hfree. split.
  - by rewrite aggregate_full_response, call_free_responses.
  - by rewrite aggregate_function_calls, call_free_log.
Qed.

(** C5. The lines of [function_calls] that start with "Calling: " are the
    lines "Calling: <name>(<arguments>)" of the function calls of the
    stream, one per call and in the order the calls arrived; so there are
    as many of them as calls. *)
Theorem call_lines_match_requests stream :
  List.filter is_call_line (function_calls (aggregate stream))
  = (λ p, call_info p.1 p.2) <$> requests (all_items stream)
  ∧ length (List.filter is_call_line (function_calls (aggregate stream)))
    = length (requests (all_items stream)).
Proof.
  assert (List.filter is_call_line (function_calls (aggregate stream))
          = (λ p, call_info p.1 p.2) <$> requests (all_items stream)) as Heq.
  { by rewrite aggregate_function_calls, call_lines_of_log. }
  split; [done|]. by rewrite Heq, length_fmap.
Qed.

(** C6. [function_results] has an entry for a function name exactly when
    a function result with that name arrived, and the entry is the value of
    the last such result; a function call whose name got no result has its
    line in [function_calls] and no entry in [function_results]. *)
Theorem function_results_last_write_wins stream (fn : string) :
  function_results (aggregate stream) !! fn
  = last (results_named fn (all_items stream))
  ∧ (is_Some (function_results (aggregate stream) !! fn)
     ↔ ∃ res, FunctionResultContent fn res ∈ all_items stream)
  ∧ (∀ args,
       FunctionCallContent fn args ∈ all_items stream →
       (∀ res, FunctionResultContent fn res ∉ all_items stream) →
       call_info fn args ∈ function_calls (aggregate stream)
       ∧ function_results (aggregate stream) !! fn = None).
Proof.
  pose proof (aggregate_function_results stream fn) as Hlast.
  split; [done|]. split.
  - rewrite Hlast. split.
    + intros [res Hres]. exists res.
      apply results_named_elem_of. by apply last_Some_elem_of.
    + intros [res Hres%results_named_elem_of].
      destruct (last (results_named fn (all_items stream))) eqn:Hl; [done|].
      apply last_None in Hl. rewrite Hl in Hres. by apply elem_of_nil in Hres.
  - intros args Hcall Hnone. split.
    + rewrite aggregate_function_calls, list_elem_of_omap.
      by exists (FunctionCallContent fn args).
    + rewrite Hlast. apply last_None.
      destruct (results_named fn (all_items stream)) as [|res l] eqn:Hl; [done|].
      destruct (Hnone res). apply results_named_elem_of. rewrite Hl. left.
Qed.

Lemma identifying_name_truthy c (n : string) :
  identifying_name c = Some n → truthy n = true.
Proof.
  unfold identifying_name. destruct (name c) as [[n'|]|]; [|done..].
  destruct (truthy n') eqn:Hn; [|done]. by intros [= <-].
Qed.

(** C8. Let the stream be [pre ++ c :: post], where [c] is the first
    content that carries an identifying name, [n]. As long as only contents
    of [pre] have arrived, [agent_name] is unset (false in a condition);
    from the arrival of [c] on it is [n], after every later content too. *)
Theorem agent_name_set_once (pre post : list (StreamingChatMessageContent V)) c
    (n : string) :
  Forall (λ c', identifying_name c' = None) pre →
  identifying_name c = Some n →
  (∀ k, k ≤ length pre →
     truthy_opt (agent_name (aggregate (take k (pre ++ c :: post)))) = false)
  ∧ (∀ k, length pre < k →
       agent_name (aggregate (take k (pre ++ c :: post))) = Some n)
  ∧ agent_name (aggregate (pre ++ c :: post)) = Some n.
Proof.
  intros Hpre Hc.
  assert (∀ k, length pre < k →
            agent_name (aggregate (take k (pre ++ c :: post))) = Some n) as Hlate.
  { intros k Hk. rewrite take_app_ge by lia.
    destruct (k - length pre) as [|j] eqn:Hj; [lia|]. simpl.
    unfold aggregate. rewrite foldl_app. simpl.
    assert (agent_name (collect (foldl collect fresh_locals pre) c) = Some n) as Hset.
    { apply agent_name_set; [by apply agent_name_unset_all | done]. }
    rewrite agent_name_kept; [done|].
    rewrite Hset. simpl. by apply (identifying_name_truthy c). }
  split; [|split; [done|]].
  - intros k Hk. rewrite take_app_le by done.
    apply agent_name_unset_all. by apply Forall_take.
  - rewrite <-(take_ge (pre ++ c :: post) (length (pre ++ c :: post))) by done.
    apply Hlate. rewrite length_app. simpl. lia.
Qed.

End turn_result.

Module TurnSamples.

Import Samples.

(** C4, as stated, fails: the middle delta of [spaced_reply] is a single
    space, which the loop skips, so the text is "Sure,Bali?" and not the
    concatenation of all three deltas. *)
Lemma white_space_delta_dropped :
  Forall call_free spaced_reply
  ∧ join (text_delta <$> spaced_reply) = "Sure, Bali?"
  ∧ full_response (aggregate spaced_reply) = "Sure,Bali?"
  ∧ full_response (aggregate spaced_reply) ≠ join (text_delta <$> spaced_reply).
Proof.
  split; [by repeat constructor|]. by vm_compute.
Qed.

Lemma call_free_full_response_witness :
  full_response (aggregate spaced_reply)
  = join (List.filter (λ d, negb (blank d)) (text_delta <$> spaced_reply))
  ∧ function_calls (aggregate spaced_reply) = [].
Proof.
  apply (call_free_full_response spaced_reply). by repeat constructor.
Defined.

Lemma function_results_last_write_wins_witness :
  function_results (aggregate reply_with_calls) !! "get_random_destination"
  = Some "Bali, Indonesia"
  ∧ call_info "book_flight" "{}" ∈ function_calls (aggregate reply_with_calls)
  ∧ function_results (aggregate reply_with_calls) !! "book_flight" = None.
Proof.
  split.
  - by destruct (function_results_last_write_wins reply_with_calls
                   "get_random_destination") as [-> _].
  - apply (function_results_last_write_wins reply_with_calls "book_flight").
    + by apply (list_elem_of_lookup_2 _ 3).
    + intros res Hin. vm_compute in Hin.
      repeat (apply elem_of_cons in Hin as [Hin|Hin]; [discriminate|]).
      by apply elem_of_nil in Hin.
Defined.

Lemma agent_name_set_once_witness :
  PyStr.truthy_opt (agent_name (aggregate (take 2 late_name_reply))) = false
  ∧ agent_name (aggregate (take 3 late_name_reply)) = Some "TravelAgent"
  ∧ agent_name (aggregate late_name_reply) = Some "TravelAgent".
Proof.
  destruct (agent_name_set_once
              [named_chunk None "Sure, "; named_chunk (Some "") "how "]
              [named_chunk (Some "OtherAgent") "Bali?"]
              (named_chunk (Some "TravelAgent") "about ") "TravelAgent")
    as (Hearly & Hlate & Hend).
  - by repeat constructor.
  - reflexivity.
  - split; [apply (Hearly 2); simpl; lia|].
    split; [apply (Hlate 3); simpl; lia | exact Hend].
Defined.

End TurnSamples.

(** ** The driver and the chat history *)

Section driver_history.

Import PyStr.

Context {V : Type} `{!Format V}.

Variable invoke_stream : M (list (StreamingChatMessageContent V)).

Lemma printed_nil (σ : Store) : printed [] σ = σ.
Proof. destruct σ. unfold printed. simpl. by rewrite app_nil_r. Qed.

Lemma printed_app (l1 l2 : list string) (σ : Store) :
  printed l2 (printed l1 σ) = printed (l1 ++ l2) σ.
Proof. unfold printed. simpl. by rewrite app_assoc. Qed.

Lemma print_run (line : string) (σ : Store) :
  print line σ = (Ok (), printed [line] σ).
Proof. done. Qed.

Lemma for_each_print_run (lines : list string) (σ : Store) :
  for_each print lines σ = (Ok (), printed lines σ).
Proof.
  revert σ. induction lines as [|line lines IH]; intros σ; simpl.
  - by rewrite printed_nil.
  - rewrite (bind_Ok _ _ _ _ _ (print_run line σ)), IH.
    by rewrite printed_app.
Qed.

(** The end of a turn prints and does nothing else. *)
Lemma render_run (acc : TurnLocals V) (σ : Store) :
  render acc σ = (Ok (), printed (rendered acc) σ).
Proof.
  unfold render, rendered.
  destruct (function_calls acc) as [|call calls].
  - erewrite bind_Ok by reflexivity.
    do 2 (erewrite bind_Ok by apply print_run).
    rewrite print_run. by rewrite !printed_app.
  - erewrite bind_Ok; last first.
    { do 2 (erewrite bind_Ok by apply print_run).
      erewrite bind_Ok by apply for_each_print_run.
      apply print_run. }
    do 2 (erewrite bind_Ok by apply print_run).
    rewrite print_run, !printed_app. do 2 f_equal.
    by rewrite <-!app_assoc.
Qed.

(** A turn, whole: the user message and the echo, the agent, the
    printing. *)
Lemma turn_run (user_input : string) (σ : Store) :
  turn invoke_stream user_input σ
  = match invoke_stream (at_invocation user_input σ) with
    | (Ok stream, σ') => (Ok (), printed (rendered (aggregate stream)) σ')
    | (Raise e, σ') => (Raise e, σ')
    end.
Proof.
  unfold turn.
  do 4 (erewrite bind_Ok by reflexivity). simpl.
  assert (∀ l a b c : list string, ((l ++ a) ++ b) ++ c = l ++ a ++ b ++ c)
    as -> by (intros; by rewrite <-!app_assoc).
  fold (at_invocation user_input σ).
  unfold mbind, M_bind.
  destruct (invoke_stream _) as [[stream|e] σ']; [apply render_run | done].
Qed.

Lemma turn_history (user_input : string) (σ : Store) :
  chat_history (turn invoke_stream user_input σ).2
  = chat_history (invoke_stream (at_invocation user_input σ)).2.
Proof.
  rewrite turn_run. by destruct (invoke_stream _) as [[stream|e] σ'].
Qed.

Lemma for_each_turn_history (inputs : list string) (σ : Store) :
  keeps_history invoke_stream →
  ∃ k, k ≤ length inputs
       ∧ chat_history (for_each (turn invoke_stream) inputs σ).2
         = chat_history σ ++ user_messages (take k inputs)
       ∧ (∀ r, (for_each (turn invoke_stream) inputs σ).1 = Ok r →
          k = length inputs).
Proof.
  intros Hkeeps. revert σ.
  induction inputs as [|u inputs IH]; intros σ.
  - exists 0. simpl. by rewrite app_nil_r.
  - pose proof (turn_history u σ) as Hturn.
    rewrite Hkeeps in Hturn. simpl in Hturn.
    cbn [for_each].
    destruct (turn invoke_stream u σ) as [[[]|e] σ'] eqn:Hrun; simpl in Hturn.
    + rewrite (bind_Ok _ _ _ _ _ Hrun).
      destruct (IH σ') as (k & Hk & Hhist & Hok).
      exists (S k). simpl. split; [lia|]. split.
      * by rewrite Hhist, Hturn, <-app_assoc.
      * intros r Hr. f_equal. by apply (Hok r).
    + rewrite (bind_Raise _ _ _ _ _ Hrun).
      exists 1. cbn [length take fst snd]. split; [lia|]. rewrite take_0. by split.
Qed.

End driver_history.

Module DriverFacts.

Import Samples.

(** C1 (as the code has it). In every turn the driver appends the user
    message and nothing else: the agent is invoked on the history with the
    user message at its end; when the stream has ended its aggregate is
    printed, [full_response] included, and the history is as that
    invocation left it. No assistant message with [full_response] is
    appended. So with an agent that leaves the history alone, the history
    after the run holds the user messages only, one for every turn that was
    started. *)
Theorem driver_appends_user_message_only {V : Type} `{!PyStr.Format V}
    (invoke_stream : M (list (StreamingChatMessageContent V))) :
  (∀ user_input σ,
     chat_history (at_invocation user_input σ)
     = chat_history σ ++ [mkMessage USER user_input]
     ∧ turn invoke_stream user_input σ
       = match invoke_stream (at_invocation user_input σ) with
         | (Ok stream, σ') => (Ok (), printed (rendered (aggregate stream)) σ')
         | (Raise e, σ') => (Raise e, σ')
         end
     ∧ chat_history (turn invoke_stream user_input σ).2
       = chat_history (invoke_stream (at_invocation user_input σ)).2)
  ∧ (keeps_history invoke_stream →
     ∀ inputs σ,
       ∃ k, k ≤ length inputs
            ∧ chat_history (converse invoke_stream inputs σ).2
              = user_messages (take k inputs)
            ∧ (∀ r, (converse invoke_stream inputs σ).1 = Ok r →
               k = length inputs)).
Proof.
  split.
  - intros u σ. split; [done|]. split; [apply turn_run | apply turn_history].
  - intros Hkeeps inputs σ. unfold converse.
    erewrite bind_Ok by reflexivity.
    by apply (for_each_turn_history invoke_stream inputs).
Qed.

Lemma driver_appends_user_message_only_witness :
  ∃ k, k ≤ length user_inputs
       ∧ chat_history (converse quiet_agent user_inputs DestinationPlugin.init).2
         = user_messages (take k user_inputs)
       ∧ (∀ r, (converse quiet_agent user_inputs DestinationPlugin.init).1 = Ok r →
          k = length user_inputs).
Proof.
  apply (driver_appends_user_message_only quiet_agent). intros σ. reflexivity.
Defined.

(** C1, as stated, fails: run with an agent that streams "Sure,", " ",
    "Bali?" in every turn, [main] prints the response "Sure,Bali?" four
    times, and the chat history ends up with the four user messages and no
    assistant message. *)
Lemma main_appends_no_assistant_message :
  chat_history (main quiet_agent DestinationPlugin.init).2
  = user_messages user_inputs
  ∧ full_response (aggregate spaced_reply) = "Sure,Bali?"
  ∧ "Sure,Bali?" ∈ stdout (main quiet_agent DestinationPlugin.init).2
  ∧ mkMessage ASSISTANT "Sure,Bali?"
    ∉ chat_history (main quiet_agent DestinationPlugin.init).2.
Proof.
  assert (chat_history (main quiet_agent DestinationPlugin.init).2
          = user_messages user_inputs) as Hhist by (by vm_compute).
  split; [done|]. split; [by vm_compute|]. split.
  - apply (bool_decide_unpack _). by vm_compute.
  - rewrite Hhist. intros Hin. vm_compute in Hin.
    repeat (apply elem_of_cons in Hin as [Hin|Hin]; [discriminate|]).
    by apply elem_of_nil in Hin.
Qed.

End DriverFacts.

(** ** More on the destination plugin *)

Module DestinationSeries.

Import DestinationPlugin Samples.

Implicit Types (σ : Store) (ds av : list string).

Lemma remove_Some_other (s x : string) (l l' : list string) :
  PyList.remove s l = Some l' → x ∈ l → x ≠ s → x ∈ l'.
Proof.
  revert l'. induction l as [|y l IH]; intros l'; simpl; [done|].
  destruct (String.eqb_spec y s) as [->|Hne].
  - intros [= ->] [->|?]%elem_of_cons ?; done.
  - destruct (PyList.remove s l) as [l0|]; simpl; [|done].
    intros [= <-] [->|?]%elem_of_cons ?; [left | right; eauto].
Qed.

Lemma available_other (latest : option string) ds (x : string) :
  x ∈ ds → latest ≠ Some x → x ∈ available latest ds.
Proof.
  intros Hx Hne. destruct latest as [s|]; simpl; [|done].
  destruct (PyList.remove s ds) as [l'|] eqn:Hr; simpl; [|done].
  apply (remove_Some_other s x ds l' Hr Hx). congruence.
Qed.

(** X1. On a plugin whose destinations are all different, an invocation
    returns a destination other than the latest one, and every destination
    other than the latest one is returned for some draw of the generator:
    the latest destination is all that is excluded. *)
Theorem suggestions_are_the_other_destinations σ ds :
  holds σ ds → NoDup ds →
  (∀ draw v σ', get_random_destination draw σ = (Ok v, σ') →
     v ∈ ds ∧ latest_destination (self σ) ≠ Some v)
  ∧ (∀ v, v ∈ ds → latest_destination (self σ) ≠ Some v →
       ∃ draw, (get_random_destination draw σ).1 = Ok v).
Proof.
  intros Hds Hnd. split.
  - intros draw v σ'.
    destruct (get_random_destination_cases draw σ ds Hds) as [[_ ->]|(x & Hx & ->)];
      [done|].
    intros [= <- _]. split; [by apply available_elem_of in Hx|].
    by apply (available_not_latest _ ds).
  - intros v Hv Hne.
    apply (available_other _ _ _ Hv) in Hne.
    apply list_elem_of_lookup in Hne as [i Hi].
    exists i. rewrite (get_random_destination_run _ _ _ Hds). cbv zeta.
    rewrite Nat.mod_small by (by eapply lookup_lt_Some).
    by rewrite Hi.
Qed.

Lemma suggestions_are_the_other_destinations_witness :
  (∀ draw v σ', get_random_destination draw (suggested init vacation_destinations "Tokyo, Japan")
                = (Ok v, σ') →
     v ∈ vacation_destinations
     ∧ latest_destination (self (suggested init vacation_destinations "Tokyo, Japan"))
       ≠ Some v)
  ∧ (∀ v, v ∈ vacation_destinations →
       latest_destination (self (suggested init vacation_destinations "Tokyo, Japan"))
       ≠ Some v →
       ∃ draw, (get_random_destination draw
                  (suggested init vacation_destinations "Tokyo, Japan")).1 = Ok v).
Proof.
  apply (suggestions_are_the_other_destinations
           (suggested init vacation_destinations "Tokyo, Japan")
           vacation_destinations).
  - reflexivity.
  - exact DestinationFacts.vacation_destinations_NoDup.
Defined.

(** X2. An invocation that returns [v] prints the one line
    "Selected destination: v"; an invocation that raises prints nothing
    and leaves the plugin object, [latest_destination] included, as it
    was. *)
Theorem invocation_prints_selection (draw : nat) σ ds :
  holds σ ds →
  match get_random_destination draw σ with
  | (Ok v, σ') => stdout σ' = stdout σ ++ ["Selected destination: " +:+ v]
  | (Raise _, σ') => stdout σ' = stdout σ ∧ self σ' = self σ
  end.
Proof.
  intros Hds.
  by destruct (get_random_destination_cases draw σ ds Hds) as [[_ ->]|(x & _ & ->)].
Qed.

Lemma invocation_prints_selection_witness :
  match get_random_destination 13 init with
  | (Ok v, σ') => stdout σ' = stdout init ++ ["Selected destination: " +:+ v]
  | (Raise _, σ') => stdout σ' = stdout init ∧ self σ' = self init
  end.
Proof.
  apply (invocation_prints_selection 13 init vacation_destinations). reflexivity.
Defined.

Lemma invoke_each_cons (r : nat) (rs : list nat) σ :
  invoke_each (r :: rs) σ
  = ((get_random_destination r σ).1 :: (invoke_each rs (get_random_destination r σ).2).1,
     (invoke_each rs (get_random_destination r σ).2).2).
Proof.
  cbn [invoke_each]. destruct (get_random_destination r σ) as [o σ'].
  cbn [fst snd]. by destruct (invoke_each rs σ') as [os σ''].
Qed.

(** X3. Over a series of invocations the output grows by the lines of the
    invocations that returned, in order, one outcome is recorded per
    invocation, and at the end [latest_destination] is the value returned
    last (what it was before, when no invocation returned). *)
Theorem series_prints_and_remembers (draws : list nat) σ ds :
  holds σ ds →
  let outs := (invoke_each draws σ).1 in
  let σ' := (invoke_each draws σ).2 in
  length outs = length draws
  ∧ stdout σ' = stdout σ ++ selected_lines outs
  ∧ latest_destination (self σ')
    = from_option Some (latest_destination (self σ)) (last (returned outs))
  ∧ holds σ' ds.
Proof.
  cbv zeta. revert σ. induction draws as [|r draws IH]; intros σ Hds.
  - simpl. by rewrite app_nil_r.
  - rewrite invoke_each_cons. cbn [fst snd length].
    destruct (get_random_destination_cases r σ ds Hds) as [[_ Hrun]|(x & _ & Hrun)];
      rewrite Hrun; cbn [fst snd].
    + destruct (IH (with_copy σ (available (latest_destination (self σ)) ds)))
        as (Hlen & Hout & Hlatest & Hholds); [by apply holds_with_copy|].
      by rewrite Hlen, Hout, Hlatest.
    + destruct (IH (suggested σ (available (latest_destination (self σ)) ds) x))
        as (Hlen & Hout & Hlatest & Hholds); [by apply holds_suggested|].
      rewrite Hlen, Hout, Hlatest. unfold selected_lines, returned.
      cbn [omap list_omap fmap list_fmap stdout suggested self latest_destination].
      rewrite <-app_assoc. repeat split; [|done].
      rewrite last_cons. by destruct (last _).
Qed.

Lemma series_prints_and_remembers_witness :
  length (invoke_each [13; 3] init).1 = length [13; 3]
  ∧ stdout (invoke_each [13; 3] init).2
    = stdout init ++ selected_lines (invoke_each [13; 3] init).1
  ∧ latest_destination (self (invoke_each [13; 3] init).2)
    = from_option Some (latest_destination (self init))
        (last (returned (invoke_each [13; 3] init).1))
  ∧ holds (invoke_each [13; 3] init).2 vacation_destinations.
Proof.
  apply (series_prints_and_remembers [13; 3] init vacation_destinations).
  reflexivity.
Defined.

(** X4. With exactly two different destinations the suggestions alternate:
    after [a] the next one is [b], and after [b] it is [a], whatever the
    generator draws. *)
Theorem two_destinations_alternate (draw : nat) σ (a b : string) :
  holds σ [a; b] → a ≠ b →
  (latest_destination (self σ) = Some a →
     (get_random_destination draw σ).1 = Ok b)
  ∧ (latest_destination (self σ) = Some b →
       (get_random_destination draw σ).1 = Ok a).
Proof.
  intros Hds Hab.
  rewrite (get_random_destination_run _ _ _ Hds). cbv zeta.
  split; intros ->.
  - assert (available (Some a) [a; b] = [b]) as ->
      by (simpl; by rewrite String.eqb_refl).
    cbn [length]. by rewrite Nat.mod_1_r.
  - assert (available (Some b) [a; b] = [a]) as ->.
    { apply String.eqb_neq in Hab. simpl. by rewrite Hab, String.eqb_refl. }
    cbn [length]. by rewrite Nat.mod_1_r.
Qed.

Lemma two_destinations_alternate_witness :
  (latest_destination (self (suggested (init_with ["Oslo"; "Rome"]) ["Oslo"; "Rome"] "Oslo"))
   = Some "Oslo" →
     (get_random_destination 5
        (suggested (init_with ["Oslo"; "Rome"]) ["Oslo"; "Rome"] "Oslo")).1
     = Ok "Rome")
  ∧ (latest_destination (self (suggested (init_with ["Oslo"; "Rome"]) ["Oslo"; "Rome"] "Oslo"))
     = Some "Rome" →
       (get_random_destination 5
          (suggested (init_with ["Oslo"; "Rome"]) ["Oslo"; "Rome"] "Oslo")).1
       = Ok "Oslo").
Proof.
  apply (two_destinations_alternate 5
           (suggested (init_with ["Oslo"; "Rome"]) ["Oslo"; "Rome"] "Oslo")
           "Oslo" "Rome").
  - reflexivity.
  - discriminate.
Defined.

Lemma invoke_each_members ds (draws : list nat) σ :
  NoDup ds → 2 ≤ length ds → holds σ ds →
  ∃ outs,
    (invoke_each draws σ).1 = Ok <$> outs
    ∧ Forall (λ v, v ∈ ds) outs
    ∧ no_repeat_from (latest_destination (self σ)) outs.
Proof.
  intros Hnd Hlen. revert σ.
  induction draws as [|r draws IH]; intros σ Hds.
  - by exists [].
  - rewrite invoke_each_cons. cbn [fst].
    destruct (get_random_destination_cases r σ ds Hds) as [[Hnil _]|(x & Hx & ->)].
    + pose proof (available_length (latest_destination (self σ)) ds) as Hav.
      rewrite Hnil in Hav. simpl in Hav. lia.
    + cbn [fst snd].
      destruct (IH (suggested σ (available (latest_destination (self σ)) ds) x))
        as (outs & -> & Hall & Hchain); [by apply holds_suggested|].
      exists (x :: outs). split; [done|]. split.
      * constructor; [by apply available_elem_of in Hx | done].
      * split; [by apply (available_not_latest _ ds) | done].
Qed.

(** X5. The plugin as [__init__] builds it never raises: whatever the
    generator draws, every invocation of a series returns one of the ten
    vacation destinations, and never the one returned just before. *)
Theorem production_plugin_never_raises (draws : list nat) :
  ∃ outs,
    (invoke_each draws init).1 = Ok <$> outs
    ∧ Forall (λ v, v ∈ vacation_destinations) outs
    ∧ no_consecutive_repeat outs.
Proof.
  destruct (invoke_each_members vacation_destinations draws init)
    as (outs & Houts & Hall & Hchain).
  - exact DestinationFacts.vacation_destinations_NoDup.
  - simpl. lia.
  - reflexivity.
  - exists outs. repeat split; [done..|].
    by apply (DestinationFacts.no_repeat_from_consecutive None).
Qed.

End DestinationSeries.

(** ** More on the loop of one turn *)

Section turn_laws.

Import PyStr.

Context {V : Type} `{!Format V}.

Implicit Types (item : Item V) (its : list (Item V))
  (c : StreamingChatMessageContent V) (stream : list (StreamingChatMessageContent V)).

Lemma join_app (l1 l2 : list string) : join (l1 ++ l2) = join l1 +:+ join l2.
Proof.
  unfold join. induction l1 as [|x l1 IH]; simpl; [done|].
  by rewrite IH, str_app_assoc.
Qed.

Lemma response_text_shows c :
  response_text c = if shows_text c then Some (text_delta c) else None.
Proof.
  unfold response_text, shows_text, text_delta.
  destruct (content c) as [[s|]|]; [|done..].
  rewrite truthy_and_strip. by destruct (_ && _).
Qed.

Lemma shown_responses stream :
  omap response_text stream = text_delta <$> List.filter shows_text stream.
Proof.
  induction stream as [|c stream IH]; [done|].
  cbn [List.filter omap list_omap].
  change (list_omap _ _ response_text stream) with (omap response_text stream).
  rewrite response_text_shows, IH. by destruct (shows_text c).
Qed.

(** X6. [full_response] is the concatenation, in arrival order, of the
    texts of the contents that have a character other than white space and
    carry no function call or function result; the text of any other
    content is left out. *)
Theorem full_response_of_shown_texts stream :
  full_response (aggregate stream)
  = join (text_delta <$> List.filter shows_text stream).
Proof. by rewrite aggregate_full_response, shown_responses. Qed.

Lemma call_info_not_result_line (fn : string) (args : V) :
  is_result_line (call_info fn args) = false.
Proof. done. Qed.

Lemma result_info_is_result_line (res : V) :
  is_result_line (result_info res) = true.
Proof. apply prefix_app. Qed.

Lemma result_lines_of_log its :
  List.filter is_result_line (omap log_line its) = result_info <$> results its.
Proof.
  unfold results. induction its as [|item its IH]; [done|].
  destruct item as [fn args|fn res|text];
    cbn -[is_result_line call_info result_info].
  - by rewrite call_info_not_result_line.
  - rewrite result_info_is_result_line. by f_equal.
  - done.
Qed.

Lemma log_length its :
  length (omap log_line its) = length (List.filter is_function_item its).
Proof.
  induction its as [|item its IH]; [done|].
  destruct item; simpl; [f_equal; exact IH..|exact IH].
Qed.

(** X7. [function_calls] has one line per function call or function
    result of the stream and no other line, and its lines that start with
    "Result: " are the lines "Result: <value>" of the function results, in
    the order the results arrived. *)
Theorem call_log_lines stream :
  length (function_calls (aggregate stream))
  = length (List.filter is_function_item (all_items stream))
  ∧ List.filter is_result_line (function_calls (aggregate stream))
    = result_info <$> results (all_items stream).
Proof.
  rewrite aggregate_function_calls. split.
  - apply log_length.
  - apply result_lines_of_log.
Qed.

(** *** The name that is shown *)

Lemma first_name_split stream :
  (first_name stream = None ∧ Forall (λ c, identifying_name c = None) stream)
  ∨ ∃ pre c post n,
      stream = pre ++ c :: post
      ∧ Forall (λ c', identifying_name c' = None) pre
      ∧ identifying_name c = Some n
      ∧ first_name stream = Some n.
Proof.
  unfold first_name. induction stream as [|c stream IH]; [by left|].
  destruct (identifying_name c) as [n|] eqn:Hc.
  - right. exists [], c, stream, n.
    split; [done|]. split; [constructor|]. split; [done|].
    cbn [omap list_omap]. by rewrite Hc.
  - cbn [omap list_omap]. rewrite Hc.
    destruct IH as [[Hnone Hall]|(pre & c' & post & n & -> & Hpre & Hc' & Hn)].
    + left. split; [done | by constructor].
    + right. exists (c :: pre), c', post, n.
      split; [done|]. split; [by constructor|]. by split.
Qed.

Lemma agent_name_first stream :
  match first_name stream with
  | Some n => agent_name (aggregate stream) = Some n ∧ truthy n = true
  | None => truthy_opt (agent_name (aggregate stream)) = false
  end.
Proof.
  destruct (first_name_split stream)
    as [[-> Hall]|(pre & c & post & n & -> & Hpre & Hc & ->)].
  - by apply agent_name_unset_all.
  - pose proof (identifying_name_truthy c n Hc) as Hn. split; [|done].
    unfold aggregate. rewrite foldl_app. simpl.
    assert (agent_name (collect (foldl collect fresh_locals pre) c) = Some n) as Hset.
    { apply agent_name_set; [by apply agent_name_unset_all | done]. }
    rewrite agent_name_kept; [done|]. by rewrite Hset.
Qed.

Lemma display_name_first stream :
  display_name (aggregate stream) = default "Assistant" (first_name stream).
Proof.
  unfold display_name. pose proof (agent_name_first stream) as Hfirst.
  destruct (first_name stream) as [n|]; simpl.
  - destruct Hfirst as [-> Hn]. simpl. by rewrite Hn.
  - by rewrite Hfirst.
Qed.

(** X8. Aggregation goes through concatenation of streams: for a stream
    cut in two, the call log and the response of the whole are those of
    the parts put one after the other, the results of the whole are those
    of the second part and, for the names the second part has no result
    for, those of the first, and the name shown is that of the first part
    when it has one, otherwise that of the second. *)
Theorem aggregate_app (s1 s2 : list (StreamingChatMessageContent V)) :
  function_calls (aggregate (s1 ++ s2))
  = function_calls (aggregate s1) ++ function_calls (aggregate s2)
  ∧ full_response (aggregate (s1 ++ s2))
    = full_response (aggregate s1) +:+ full_response (aggregate s2)
  ∧ function_results (aggregate (s1 ++ s2))
    = function_results (aggregate s2) ∪ function_results (aggregate s1)
  ∧ display_name (aggregate (s1 ++ s2))
    = if truthy_opt (agent_name (aggregate s1))
      then display_name (aggregate s1) else display_name (aggregate s2).
Proof.
  split; [|split; [|split]].
  - rewrite !aggregate_function_calls. unfold all_items.
    by rewrite bind_app, omap_app.
  - by rewrite !aggregate_full_response, omap_app, join_app.
  - apply map_eq. intros fn.
    rewrite lookup_union, !aggregate_function_results.
    unfold all_items. rewrite bind_app. unfold results_named.
    rewrite omap_app, last_app.
    by destruct (last (omap _ (s2 ≫= items))), (last (omap _ (s1 ≫= items))).
  - rewrite !display_name_first. unfold first_name at 1.
    rewrite omap_app, head_app. fold (first_name s1). fold (first_name s2).
    pose proof (agent_name_first s1) as Hfirst.
    destruct (first_name s1) as [n|]; simpl.
    + destruct Hfirst as [-> Hn]. simpl. by rewrite Hn.
    + by rewrite Hfirst.
Qed.

(** X9. What the end of a turn prints for a stream: the block
    "Function Calls:" with the call log between two dashed lines when the
    stream carries a function call or result, and no such block when it
    carries none; then the first identifying name of the stream, or
    "Assistant" when no content has one; then the response and the closing
    line. Nothing else changes, and the printing never raises. *)
Theorem turn_prints (stream : list (StreamingChatMessageContent V)) (σ : Store) :
  render (aggregate stream) σ
  = (Ok (),
     printed
       (call_block (omap log_line (all_items stream))
        ++ [ newline +:+ default "Assistant" (first_name stream) +:+ ":";
             join (text_delta <$> List.filter shows_text stream);
             newline +:+ repeat "=" 50 ])
       σ)
  ∧ (call_block (omap log_line (all_items stream)) = []
     ↔ Forall (λ item, is_function_item item = false) (all_items stream)).
Proof.
  split.
  - rewrite render_run. unfold rendered.
    fold (display_name (aggregate stream)).
    rewrite display_name_first, aggregate_full_response, shown_responses,
      aggregate_function_calls.
    done.
  - generalize (all_items stream). intros its. split.
    + induction its as [|item its IH]; [by constructor|].
      destruct item; simpl; [done..|]. intros Hb. constructor; [done|].
      apply IH. exact Hb.
    + induction 1 as [|item its Hitem _ IH]; [done|].
      destruct item; simpl in *; [done..|]. exact IH.
Qed.

End turn_laws.

(** ** More on the driver *)

Section driver_laws.

Context {V : Type} `{!PyStr.Format V}.

Variable invoke_stream : M (list (StreamingChatMessageContent V)).

Lemma prefix_sublist {A : Type} (l1 l2 : list A) :
  l1 `prefix_of` l2 → l1 `sublist_of` l2.
Proof. intros [k ->]. by apply sublist_inserts_r. Qed.

Lemma for_each_app {A : Type} (body : A → M unit) (l1 l2 : list A) (σ : Store) :
  for_each body (l1 ++ l2) σ
  = match for_each body l1 σ with
    | (Ok _, σ') => for_each body l2 σ'
    | (Raise e, σ') => (Raise e, σ')
    end.
Proof.
  revert σ. induction l1 as [|x l1 IH]; intros σ; [done|].
  cbn [app for_each]. unfold mbind, M_bind.
  destruct (body x σ) as [[[]|e] σ']; [apply IH | done].
Qed.

Lemma converse_run (inputs : list string) (σ : Store) :
  converse invoke_stream inputs σ
  = for_each (turn invoke_stream) inputs
      {| lists := lists σ; self := self σ; chat_history := [];
         stdout := stdout σ |}.
Proof. unfold converse. by erewrite bind_Ok by reflexivity. Qed.

Lemma turn_appends (user_input : string) (σ : Store) :
  appends_only invoke_stream →
  chat_history σ ++ [mkMessage USER user_input]
    `prefix_of` chat_history (turn invoke_stream user_input σ).2.
Proof.
  intros Happ. rewrite turn_history. apply (Happ (at_invocation user_input σ)).
Qed.

Lemma for_each_turn_sublist (inputs : list string) (σ : Store) :
  appends_only invoke_stream →
  ∃ k, k ≤ length inputs
       ∧ chat_history σ ++ user_messages (take k inputs)
           `sublist_of` chat_history (for_each (turn invoke_stream) inputs σ).2
       ∧ match (for_each (turn invoke_stream) inputs σ).1 with
         | Ok _ => k = length inputs
         | Raise e =>
             ∃ j, k = S j
                  ∧ (for_each (turn invoke_stream) (take j inputs) σ).1 = Ok ()
                  ∧ (for_each (turn invoke_stream) (take (S j) inputs) σ).1
                    = Raise e
         end.
Proof.
  intros Happ. revert σ.
  induction inputs as [|u inputs IH]; intros σ.
  - exists 0. simpl. by rewrite app_nil_r.
  - pose proof (turn_appends u σ Happ) as Hturn.
    destruct (turn invoke_stream u σ) as [[[]|e] σ'] eqn:Hrun; simpl in Hturn.
    + destruct (IH σ') as (k & Hk & Hhist & Hend).
      exists (S k). cbn [for_each]. rewrite (bind_Ok _ _ _ _ _ Hrun).
      split; [simpl; lia|]. split.
      * etrans; [|exact Hhist].
        change (user_messages (take (S k) (u :: inputs)))
          with ([mkMessage USER u] ++ user_messages (take k inputs)).
        rewrite app_assoc. apply sublist_app; [|done].
        by apply prefix_sublist.
      * destruct (for_each (turn invoke_stream) inputs σ').1 as [r|e'].
        { simpl. by f_equal. }
        destruct Hend as (j & -> & Hbefore & Hraise).
        exists (S j). split; [done|].
        cbn [take for_each]. by rewrite !(bind_Ok _ _ _ _ _ Hrun).
    + exists 1. cbn [for_each]. rewrite (bind_Raise _ _ _ _ _ Hrun).
      split; [simpl; lia|]. split.
      * cbn [take fst snd]. rewrite take_0. by apply prefix_sublist.
      * exists 0. split; [done|]. split; [done|].
        cbn [take for_each fst]. rewrite take_0. cbn [for_each].
        by rewrite (bind_Raise _ _ _ _ _ Hrun).
Qed.

End driver_laws.

Module DriverLaws.

Import Samples MoreSamples.

(** X10. When the agent raises in a turn, [main] stops there: it raises
    the same exception and the store is as the agent left it, so nothing is
    printed for that turn after the echo of the input, and the inputs that
    follow are neither echoed nor added to the history. *)
Theorem agent_failure_stops_main {V : Type} `{!PyStr.Format V}
    (invoke_stream : M (list (StreamingChatMessageContent V)))
    (before after : list string) (user_input e : string) (σ σ1 σ2 : Store) :
  converse invoke_stream before σ = (Ok (), σ1) →
  invoke_stream (at_invocation user_input σ1) = (Raise e, σ2) →
  converse invoke_stream (before ++ user_input :: after) σ = (Raise e, σ2).
Proof.
  rewrite !converse_run. intros Hbefore Hraise.
  rewrite for_each_app, Hbefore. cbn [for_each].
  apply bind_Raise. by rewrite turn_run, Hraise.
Qed.

Lemma agent_failure_stops_main_witness :
  converse failing_agent
    (["Plan me a day trip."]
     ++ "I don't like that destination. Plan me another vacation."
        :: ["Book it."])
    DestinationPlugin.init
  = (Raise "ServiceResponseException",
     at_invocation "I don't like that destination. Plan me another vacation."
       (converse failing_agent ["Plan me a day trip."] DestinationPlugin.init).2).
Proof.
  apply (agent_failure_stops_main failing_agent ["Plan me a day trip."] ["Book it."]
           "I don't like that destination. Plan me another vacation."
           "ServiceResponseException" DestinationPlugin.init
           (converse failing_agent ["Plan me a day trip."] DestinationPlugin.init).2).
  - reflexivity.
  - reflexivity.
Defined.

(** X11. With an agent that at most appends to the history it is handed,
    the user messages of the turns that were started are all in the history
    when [main] ends, in the order of the inputs. When [main] returns,
    these are the messages of all inputs; when it raises, [j] turns went
    through, the next one raised, and these are the messages of the first
    [j + 1] inputs, the one of the turn that raised included. *)
Theorem user_messages_kept_in_order {V : Type} `{!PyStr.Format V}
    (invoke_stream : M (list (StreamingChatMessageContent V)))
    (inputs : list string) (σ : Store) :
  appends_only invoke_stream →
  ∃ k, k ≤ length inputs
       ∧ user_messages (take k inputs)
           `sublist_of` chat_history (converse invoke_stream inputs σ).2
       ∧ match (converse invoke_stream inputs σ).1 with
         | Ok _ => k = length inputs
         | Raise e =>
             ∃ j, k = S j
                  ∧ (converse invoke_stream (take j inputs) σ).1 = Ok ()
                  ∧ (converse invoke_stream (take (S j) inputs) σ).1 = Raise e
         end.
Proof.
  intros Happ. rewrite !converse_run.
  destruct (for_each_turn_sublist invoke_stream inputs
              {| lists := lists σ; self := self σ; chat_history := [];
                 stdout := stdout σ |} Happ) as (k & Hk & Hsub & Hend).
  exists k. split; [done|]. split; [done|].
  destruct (for_each (turn invoke_stream) inputs _).1 as [r|e]; [done|].
  destruct Hend as (j & -> & Hbefore & Hraise).
  exists j. by rewrite !converse_run.
Qed.

Lemma user_messages_kept_in_order_witness :
  ∃ k, k ≤ length user_inputs
       ∧ user_messages (take k user_inputs)
           `sublist_of` chat_history (converse failing_agent user_inputs
                                        DestinationPlugin.init).2
       ∧ match (converse failing_agent user_inputs DestinationPlugin.init).1 with
         | Ok _ => k = length user_inputs
         | Raise e =>
             ∃ j, k = S j
                  ∧ (converse failing_agent (take j user_inputs)
                       DestinationPlugin.init).1 = Ok ()
                  ∧ (converse failing_agent (take (S j) user_inputs)
                       DestinationPlugin.init).1 = Raise e
         end.
Proof.
  apply (user_messages_kept_in_order failing_agent user_inputs DestinationPlugin.init).
  intros σ. unfold failing_agent, replying_agent.
  destruct (3 <=? length (chat_history σ)); simpl; [done | by apply prefix_app_r].
Defined.

End DriverLaws.

(** ** The code interpreter agent: which calls are made *)

Module CodeInterpreterFacts.

Import CodeInterpreter.

#[local] Existing Instance IO_ret.
#[local] Existing Instance IO_bind.

Example completed_run_calls :
  calls (run_agent_with_visualization (sample_service "completed")
           (last_component "") start).2
  = [ Enter; ListAgents; GetAgent "asst_2"; CreateThread;
      CreateMessage "thread_1" "user" user_query;
      CreateAndProcessRun "asst_2" "thread_1"; ListMessages "thread_1";
      SaveFile "file_1" (Str "chart.png");
      SaveFile "file_2" (PathOf "file_2_image_file.png"); Exit ].
Proof. by vm_compute. Qed.

Example failed_run_console :
  console (run_agent_with_visualization (sample_service "failed")
             (last_component "") start).2
  = [ "Total agents found: 5";
      "Code interpreter agent already exists. Agent ID: asst_2";
      "Executing the code interpreter agent with the user query: " +:+ user_query;
      "Run failed." ].
Proof. by vm_compute. Qed.

Section calls.

Variable service : Service.
Variable path_name : string → string.

Implicit Types (w : World) (c : Call) (P : Call → Prop).

Lemma adds_ret {A : Type} (a : A) P (Q : A → Prop) :
  Q a → adds (mret a) P Q.
Proof.
  intros Ha w. exists []. simpl. rewrite app_nil_r.
  split; [done|]. split; [constructor|]. by intros ? [= <-].
Qed.

Lemma adds_echo (line : string) P : adds (echo line) P (λ _, True).
Proof. intros w. exists []. simpl. by rewrite app_nil_r. Qed.

Lemma adds_request {R : Type} (reply : list Call → outcome R) c P :
  P c → adds (request reply c) P (λ a, ∃ h, reply h = Ok a).
Proof.
  intros Hc w. exists [c]. simpl. split; [done|]. split; [by constructor|].
  intros a Ha. by exists (calls w ++ [c]).
Qed.

Lemma adds_bind {A B : Type} (m : IO A) (f : A → IO B) P
    (Q : A → Prop) (R : B → Prop) :
  adds m P Q → (∀ a, Q a → adds (f a) P R) → adds (m ≫= f) P R.
Proof.
  intros Hm Hf w. unfold mbind, IO_bind.
  destruct (Hm w) as (new & Hcalls & Hnew & Hq).
  destruct (m w) as [[a|e] w']; simpl in *.
  - destruct (Hf a (Hq a eq_refl) w') as (new' & Hcalls' & Hnew' & Hr).
    exists (new ++ new'). rewrite Hcalls', Hcalls, app_assoc.
    split; [done|]. split; [by apply Forall_app | done].
  - exists new. by repeat split.
Qed.

Lemma adds_weaken {A : Type} (m : IO A) P (Q Q' : A → Prop) :
  adds m P Q → (∀ a, Q a → Q' a) → adds m P Q'.
Proof.
  intros Hm Hq w. destruct (Hm w) as (new & Hcalls & Hnew & Hpost).
  exists new. split; [done|]. split; [done|]. intros a Ha. by apply Hq, Hpost.
Qed.

Lemma adds_for_each_with {A S : Type} (body : S → A → IO S) (l : list A) (s : S) P :
  (∀ s x, adds (body s x) P (λ _, True)) →
  adds (for_each_with body l s) P (λ _, True).
Proof.
  intros Hbody. revert s. induction l as [|x l IH]; intros s; simpl.
  - by apply adds_ret.
  - apply (adds_bind _ _ _ (λ _, True)); [apply Hbody | intros s' _; apply IH].
Qed.

Lemma ends_bind {A B : Type} (m : IO A) (f : A → IO B) P (Q : A → Prop)
    (R : World → Prop) :
  adds m P Q → (∀ a, Q a → ends (f a) R) → ends (m ≫= f) R.
Proof.
  intros Hm Hf w b. unfold mbind, IO_bind.
  destruct (Hm w) as (_ & _ & _ & Hq).
  destruct (m w) as [[a|e] w']; simpl in *; [|done].
  apply (Hf a (Hq a eq_refl)).
Qed.

Lemma adds_save_annotation (saved : list string) (a : FilePathAnnotation) P :
  (∀ i n, P (SaveFile i n)) → adds (save_annotation service path_name saved a) P (λ _, True).
Proof.
  intros Hsave. unfold save_annotation.
  eapply adds_bind; [apply adds_echo | intros _ _].
  eapply adds_bind; [apply adds_request, Hsave | intros _ _].
  eapply adds_bind; [apply adds_echo | intros _ _].
  by apply adds_ret.
Qed.

Lemma adds_save_image (saved : list string) (i : string) P :
  (∀ i n, P (SaveFile i n)) → adds (save_image service saved i) P (λ _, True).
Proof.
  intros Hsave. unfold save_image.
  eapply adds_bind; [apply adds_echo | intros _ _].
  eapply adds_bind; [apply adds_request, Hsave | intros _ _].
  eapply adds_bind; [apply adds_echo | intros _ _].
  by apply adds_ret.
Qed.

Lemma adds_download (messages : ThreadMessages) P :
  (∀ i n, P (SaveFile i n)) → adds (download service path_name messages) P (λ _, True).
Proof.
  intros Hsave. unfold download.
  eapply adds_bind.
  { apply adds_for_each_with. intros ? ?. apply adds_echo. }
  intros _ _. eapply adds_bind.
  { apply adds_for_each_with. intros ? ?. by apply adds_save_annotation. }
  intros ? _. eapply adds_bind; [apply adds_echo | intros _ _].
  eapply adds_bind.
  { apply adds_for_each_with. intros ? ?. by apply adds_save_image. }
  intros ? _. eapply adds_bind; [apply adds_echo | intros _ _].
  apply adds_for_each_with. intros ? ?. apply adds_echo.
Qed.

Lemma adds_code_interpreter_agent (agents : AgentList) P :
  (∀ first rest,
     List.filter is_code_interpreter (data agents) = first :: rest →
     P (GetAgent (id first))) →
  (List.filter is_code_interpreter (data agents) = [] →
   ∀ m n i, P (CreateAgent m n i)) →
  adds (code_interpreter_agent service agents) P (λ _, True).
Proof.
  intros Hget Hcreate. unfold code_interpreter_agent.
  destruct (List.filter is_code_interpreter (data agents)) as [|first rest].
  - eapply adds_bind; [apply adds_echo | intros _ _].
    eapply adds_bind; [by apply adds_request, Hcreate | intros ? _].
    eapply adds_bind; [apply adds_echo | intros _ _].
    by apply adds_ret.
  - eapply adds_bind; [apply adds_echo | intros _ _].
    eapply adds_weaken; [by eapply adds_request, Hget | done].
Qed.

(** The block once the agents are listed only adds calls in [P], when [P]
    admits the calls it makes whatever the replies, the agent call that
    the list asks for, and the calls that follow a run that has not
    failed. *)
Lemma adds_with_agents (agents : AgentList) P :
  P CreateThread →
  (∀ t r q, P (CreateMessage t r q)) →
  (∀ a t, P (CreateAndProcessRun a t)) →
  (∀ c, agent_call_for agents c →
        match c with GetAgent _ | CreateAgent _ _ _ => P c | _ => True end) →
  ((∃ h status, run_reply service h = Ok status ∧ status ≠ "failed") →
   ∀ c, reads_or_saves c → P c) →
  adds (with_agents service path_name agents) P (λ _, True).
Proof.
  intros Hthread Hmessage Hrun Hagent Hrest. unfold with_agents.
  eapply adds_bind; [apply adds_echo | intros _ _].
  eapply adds_bind.
  { apply adds_code_interpreter_agent.
    - intros first rest Hfilter. apply (Hagent (GetAgent (id first))).
      by exists first, rest.
    - intros Hfilter m n i. by apply (Hagent (CreateAgent m n i)). }
  intros agent _.
  eapply adds_bind; [by apply adds_request | intros thread _].
  eapply adds_bind; [by apply adds_request | intros _ _].
  eapply adds_bind; [apply adds_echo | intros _ _].
  eapply adds_bind; [by apply adds_request | intros status [h' Hstatus]].
  destruct (String.eqb_spec status "failed") as [->|Hne]; [apply adds_echo|].
  assert (∀ c, reads_or_saves c → P c) as Hp by (apply Hrest; eauto).
  eapply adds_bind.
  { destruct (String.eqb status "completed"); [apply adds_echo | by apply adds_ret]. }
  intros _ _.
  eapply adds_bind; [by apply adds_request, Hp | intros messages _].
  apply adds_download. intros i n. by apply Hp.
Qed.

Lemma adds_with_client P :
  P ListAgents → P CreateThread →
  (∀ t r q, P (CreateMessage t r q)) →
  (∀ a t, P (CreateAndProcessRun a t)) →
  (∀ i, P (GetAgent i)) →
  (∀ m n i, P (CreateAgent m n i)) →
  ((∃ h status, run_reply service h = Ok status ∧ status ≠ "failed") →
   ∀ c, reads_or_saves c → P c) →
  adds (with_client service path_name) P (λ _, True).
Proof.
  intros Hlist Hthread Hmessage Hrun Hget Hcreate Hrest. unfold with_client.
  eapply adds_bind; [by apply adds_request | intros agents _].
  apply adds_with_agents; try done.
  intros c _. destruct c; first [done | apply Hget | apply Hcreate].
Qed.

(** The first call of the block and what follows its reply. *)
Lemma with_client_run w :
  with_client service path_name w
  = match agents_reply service (calls w ++ [ListAgents]) with
    | Ok agents =>
        with_agents service path_name agents
          {| calls := calls w ++ [ListAgents]; console := console w |}
    | Raise e =>
        (Raise e, {| calls := calls w ++ [ListAgents]; console := console w |})
    end.
Proof.
  unfold with_client, mbind, IO_bind, request.
  by destruct (agents_reply service (calls w ++ [ListAgents])).
Qed.

Lemma run_calls P w :
  adds (with_client service path_name) P (λ _, True) →
  ∃ new,
    calls (run_agent_with_visualization service path_name w).2
    = calls w ++ [Enter] ++ new ++ [Exit]
    ∧ Forall P new.
Proof.
  intros Hadds. unfold run_agent_with_visualization.
  destruct (Hadds (notify Enter w)) as (new & Hcalls & Hnew & _).
  destruct (with_client service path_name (notify Enter w)) as [r w'].
  exists new. simpl in *. rewrite Hcalls. by rewrite <-!app_assoc.
Qed.

End calls.

(** X12. Whatever the service replies, the calls of a run start with the
    one that enters the client and end with the one that leaves it, with no
    other such call in between: the client is left also when a call raises
    and when the run has failed. *)
Theorem client_entered_and_left (service : Service) (path_name : string → string)
    (w : World) :
  ∃ new,
    calls (run_agent_with_visualization service path_name w).2
    = calls w ++ [Enter] ++ new ++ [Exit]
    ∧ Forall (λ c, ¬ enters_or_exits c) new.
Proof.
  apply run_calls. apply adds_with_client; try (intros; simpl; tauto).
  intros _ [] ?; simpl in *; tauto.
Qed.

(** X13. The first call of the block is [list_agents]. When it raises no
    other call is made; when it returns a list, every [get_agent] call
    that follows asks for the first agent named "code-interpreter-agent"
    of that list, and a [create_agent] call is made only when the list has
    no agent of that name. *)
Theorem agent_fetched_or_created (service : Service) (path_name : string → string)
    (w : World) :
  ∃ new,
    calls (run_agent_with_visualization service path_name w).2
    = calls w ++ [Enter; ListAgents] ++ new ++ [Exit]
    ∧ match agents_reply service (calls w ++ [Enter; ListAgents]) with
      | Ok agents => Forall (agent_call_for agents) new
      | Raise _ => new = []
      end.
Proof.
  unfold run_agent_with_visualization. rewrite with_client_run.
  cbn [notify calls console]. rewrite <-app_assoc. cbn [app].
  destruct (agents_reply service (calls w ++ [Enter; ListAgents])) as [agents|e].
  - destruct (adds_with_agents service path_name agents (agent_call_for agents))
      with (w := {| calls := calls w ++ [Enter; ListAgents]; console := console w |})
      as (new & Hcalls & Hnew & _); try done.
    { by intros []. }
    { by intros _ []. }
    destruct (with_agents _ _ _ _) as [r w']. simpl in *.
    exists new. split; [|done]. rewrite Hcalls. by rewrite <-!app_assoc.
  - exists []. split; [|done]. simpl. by rewrite <-!app_assoc.
Qed.

(** X14. When every run the service reports has failed, the messages of
    the thread are never listed and no file is saved, and a run that
    returns has printed "Run failed." last. *)
Theorem failed_run_downloads_nothing (service : Service)
    (path_name : string → string) (w : World) :
  (∀ h status, run_reply service h = Ok status → status = "failed") →
  (∃ new,
     calls (run_agent_with_visualization service path_name w).2
     = calls w ++ [Enter] ++ new ++ [Exit]
     ∧ Forall (λ c, ¬ reads_or_saves c) new)
  ∧ (∀ r, (run_agent_with_visualization service path_name w).1 = Ok r →
     last (console (run_agent_with_visualization service path_name w).2)
     = Some "Run failed.").
Proof.
  intros Hfailed. split.
  - apply run_calls. apply adds_with_client; try (intros; simpl; tauto).
    intros (h & status & Hstatus & Hne). by destruct (Hne (Hfailed h status Hstatus)).
  - intros r. unfold run_agent_with_visualization.
    assert (ends (with_client service path_name)
              (λ w', last (console w') = Some "Run failed.")) as Hends.
    { unfold with_client, with_agents.
      eapply ends_bind; [by apply (adds_request _ _ (λ _, True)) | intros agents _].
      eapply ends_bind; [apply (adds_echo _ (λ _, True)) | intros _ _].
      eapply ends_bind.
      { by apply (adds_code_interpreter_agent _ _ (λ _, True)). }
      intros agent _.
      eapply ends_bind; [by apply (adds_request _ _ (λ _, True)) | intros thread _].
      eapply ends_bind; [by apply (adds_request _ _ (λ _, True)) | intros _ _].
      eapply ends_bind; [apply (adds_echo _ (λ _, True)) | intros _ _].
      eapply ends_bind; [by apply (adds_request _ _ (λ _, True)) | ].
      intros status [h Hstatus]. rewrite (Hfailed h status Hstatus).
      intros w' a _. simpl. apply last_snoc. }
    specialize (Hends (notify Enter w)).
    destruct (with_client service path_name (notify Enter w)) as [r' w'].
    simpl. intros ->. by apply (Hends r).
Qed.

Lemma failed_run_downloads_nothing_witness :
  (∃ new,
     calls (run_agent_with_visualization (sample_service "failed")
              (last_component "") start).2
     = calls start ++ [Enter] ++ new ++ [Exit]
     ∧ Forall (λ c, ¬ reads_or_saves c) new)
  ∧ (∀ r, (run_agent_with_visualization (sample_service "failed")
             (last_component "") start).1 = Ok r →
     last (console (run_agent_with_visualization (sample_service "failed")
                      (last_component "") start).2)
     = Some "Run failed.").
Proof.
  apply (failed_run_downloads_nothing (sample_service "failed")
           (last_component "") start).
  intros h status. simpl. by intros [= <-].
Defined.

End CodeInterpreterFacts.

(** ** The code interpreter agent: a run in which every call is answered *)

Module CodeInterpreterRun.

Import CodeInterpreter.

#[local] Existing Instance IO_ret.
#[local] Existing Instance IO_bind.

Section answered.

Variable service : Service.
Variable path_name : string → string.

Implicit Types (w : World).

Lemma extend_nil w : extend [] [] w = w.
Proof. destruct w. unfold extend. simpl. by rewrite !app_nil_r. Qed.

Lemma extend_extend (c1 c2 : list Call) (l1 l2 : list string) w :
  extend c2 l2 (extend c1 l1 w) = extend (c1 ++ c2) (l1 ++ l2) w.
Proof. unfold extend. simpl. by rewrite !app_assoc. Qed.

Lemma io_bind_Ok {A B : Type} (m : IO A) (f : A → IO B) w w' (a : A) :
  m w = (Ok a, w') → (m ≫= f) w = f a w'.
Proof. unfold mbind, IO_bind. by intros ->. Qed.

Lemma echo_run (line : string) w : echo line w = (Ok (), extend [] [line] w).
Proof. unfold echo, extend. by rewrite app_nil_r. Qed.

Lemma request_run {R : Type} (reply : list Call → outcome R) (c : Call) (r : R) w :
  (∀ h, reply h = Ok r) → request reply c w = (Ok r, extend [c] [] w).
Proof. intros Hreply. unfold request, extend. by rewrite Hreply, app_nil_r. Qed.

Lemma notify_run (c : Call) w : notify c w = extend [c] [] w.
Proof. unfold notify, extend. by rewrite app_nil_r. Qed.

Lemma echo_each_run {A : Type} (f : A → string) (l : list A) w :
  for_each_with (λ _ x, echo (f x)) l () w = (Ok (), extend [] (f <$> l) w).
Proof.
  revert w. induction l as [|x l IH]; intros w; simpl.
  - by rewrite extend_nil.
  - rewrite (io_bind_Ok _ _ _ _ _ (echo_run (f x) w)), IH.
    by rewrite extend_extend.
Qed.

Hypothesis saves_answered : ∀ h, done_reply service h = Ok ().

Lemma save_annotation_run (saved : list string) (a : FilePathAnnotation) w :
  save_annotation service path_name saved a w
  = (Ok (saved ++ [path_name (text a)]),
     extend (annotation_saves path_name [a])
       (download_lines [path_name (text a)]) w).
Proof using saves_answered.
  unfold save_annotation.
  rewrite (io_bind_Ok _ _ _ _ _ (echo_run _ _)).
  rewrite (io_bind_Ok _ _ _ _ _ (request_run _ _ () _ saves_answered)).
  rewrite (io_bind_Ok _ _ _ _ _ (echo_run _ _)).
  by rewrite !extend_extend.
Qed.

Lemma save_image_run (saved : list string) (i : string) w :
  save_image service saved i w
  = (Ok (saved ++ [i +:+ "_image_file.png"]),
     extend (image_saves [i]) (download_lines [i +:+ "_image_file.png"]) w).
Proof using saves_answered.
  unfold save_image.
  rewrite (io_bind_Ok _ _ _ _ _ (echo_run _ _)).
  rewrite (io_bind_Ok _ _ _ _ _ (request_run _ _ () _ saves_answered)).
  rewrite (io_bind_Ok _ _ _ _ _ (echo_run _ _)).
  by rewrite !extend_extend.
Qed.

Lemma save_annotations_run (l : list FilePathAnnotation) (saved : list string) w :
  for_each_with (save_annotation service path_name) l saved w
  = (Ok (saved ++ (path_name ∘ text <$> l)),
     extend (annotation_saves path_name l)
       (download_lines (path_name ∘ text <$> l)) w).
Proof using saves_answered.
  revert saved w. induction l as [|a l IH]; intros saved w; simpl.
  - by rewrite extend_nil, app_nil_r.
  - rewrite (io_bind_Ok _ _ _ _ _ (save_annotation_run saved a w)), IH.
    rewrite extend_extend, <-app_assoc. unfold download_lines. by simpl.
Qed.

Lemma save_images_run (l : list string) (saved : list string) w :
  for_each_with (save_image service) l saved w
  = (Ok (saved ++ ((λ i, i +:+ "_image_file.png") <$> l)),
     extend (image_saves l)
       (download_lines ((λ i, i +:+ "_image_file.png") <$> l)) w).
Proof using saves_answered.
  revert saved w. induction l as [|i l IH]; intros saved w; simpl.
  - by rewrite extend_nil, app_nil_r.
  - rewrite (io_bind_Ok _ _ _ _ _ (save_image_run saved i w)), IH.
    rewrite extend_extend, <-app_assoc. unfold download_lines. by simpl.
Qed.

Lemma download_run (messages : ThreadMessages) w :
  download service path_name messages w
  = (Ok (),
     extend
       (annotation_saves path_name (file_path_annotations messages)
        ++ image_saves (image_contents messages))
       (text_messages messages
        ++ download_lines (path_name ∘ text <$> file_path_annotations messages)
        ++ ["Downloading image files from the messages..."]
        ++ download_lines ((λ i, i +:+ "_image_file.png") <$> image_contents messages)
        ++ ["All image files downloaded successfully."]
        ++ ((λ image, "Image file: " +:+ image) <$> saved_names path_name messages))
       w).
Proof using saves_answered.
  unfold download.
  rewrite (io_bind_Ok _ _ _ _ _ (echo_each_run (λ x, x) _ _)).
  rewrite (io_bind_Ok _ _ _ _ _ (save_annotations_run _ _ _)).
  rewrite (io_bind_Ok _ _ _ _ _ (echo_run _ _)).
  rewrite (io_bind_Ok _ _ _ _ _ (save_images_run _ _ _)).
  rewrite (io_bind_Ok _ _ _ _ _ (echo_run _ _)).
  rewrite echo_each_run, !extend_extend. simpl.
  rewrite list_fmap_id. unfold saved_names. by rewrite app_nil_r.
Qed.

Lemma code_interpreter_agent_run (agents : AgentList) (agent : Agent) :
  (∀ h, agent_reply service h = Ok agent) →
  ∃ lines, ∀ w,
    code_interpreter_agent service agents w
    = (Ok agent, extend [agent_call agents] lines w).
Proof.
  intros Hagent. unfold code_interpreter_agent, agent_call.
  destruct (List.filter is_code_interpreter (data agents)) as [|first rest].
  - exists [ "No existing code interpreter agent found. Proceeding to create a new one.";
             "Agent created successfully. Agent ID: " +:+ id agent ].
    intros w.
    rewrite (io_bind_Ok _ _ _ _ _ (echo_run _ _)).
    rewrite (io_bind_Ok _ _ _ _ _ (request_run _ _ agent _ Hagent)).
    rewrite (io_bind_Ok _ _ _ _ _ (echo_run _ _)).
    by rewrite !extend_extend.
  - exists ["Code interpreter agent already exists. Agent ID: " +:+ id first].
    intros w.
    rewrite (io_bind_Ok _ _ _ _ _ (echo_run _ _)).
    by rewrite (request_run _ _ agent _ Hagent), extend_extend.
Qed.

End answered.

(** X15. Take a service that answers every call: [agents], [agent],
    [thread], [status] and [messages] are its replies, and [status] is not
    "failed" (it may be "completed" or anything else). Then a run returns
    and makes exactly these calls: it lists the agents, gets the first
    agent named "code-interpreter-agent" or creates one, creates a thread
    and the user message, runs the agent that was returned on that thread,
    lists the messages, and saves one file per file path annotation, under
    the name of the path of its text, then one file per image, under
    "<file_id>_image_file.png"; the last lines printed are
    "All image files downloaded successfully." and one "Image file:" line
    per saved file, in the order of saving. *)
Theorem answered_run_saves_files (service : Service) (path_name : string → string)
    (agents : AgentList) (agent : Agent) (thread status : string)
    (messages : ThreadMessages) (w : World) :
  (∀ h, agents_reply service h = Ok agents) →
  (∀ h, agent_reply service h = Ok agent) →
  (∀ h, thread_reply service h = Ok thread) →
  (∀ h, run_reply service h = Ok status) →
  (∀ h, messages_reply service h = Ok messages) →
  (∀ h, done_reply service h = Ok ()) →
  status ≠ "failed" →
  (run_agent_with_visualization service path_name w).1 = Ok ()
  ∧ calls (run_agent_with_visualization service path_name w).2
    = calls w
      ++ [ Enter; ListAgents; agent_call agents; CreateThread;
           CreateMessage thread "user" user_query;
           CreateAndProcessRun (id agent) thread; ListMessages thread ]
      ++ annotation_saves path_name (file_path_annotations messages)
      ++ image_saves (image_contents messages)
      ++ [Exit]
  ∧ ∃ lines,
      console (run_agent_with_visualization service path_name w).2
      = console w ++ lines
        ++ ["All image files downloaded successfully."]
        ++ ((λ image, "Image file: " +:+ image) <$> saved_names path_name messages).
Proof.
  intros Hagents Hagent Hthread Hrun Hmessages Hdone Hstatus.
  destruct (code_interpreter_agent_run service agents agent Hagent)
    as [agent_lines Hget].
  set (status_lines := if String.eqb status "completed"
                       then ["Run completed successfully."] else []).
  assert (with_client service path_name (notify Enter w)
          = (Ok (),
             extend
               ([ Enter; ListAgents; agent_call agents; CreateThread;
                  CreateMessage thread "user" user_query;
                  CreateAndProcessRun (id agent) thread; ListMessages thread ]
                ++ annotation_saves path_name (file_path_annotations messages)
                ++ image_saves (image_contents messages))
               ((["Total agents found: " +:+ pretty.pretty (len agents)]
                 ++ agent_lines
                 ++ ["Executing the code interpreter agent with the user query: "
                     +:+ user_query]
                 ++ status_lines
                 ++ text_messages messages
                 ++ download_lines (path_name ∘ text <$> file_path_annotations messages)
                 ++ ["Downloading image files from the messages..."]
                 ++ download_lines
                      ((λ i, i +:+ "_image_file.png") <$> image_contents messages))
                ++ ["All image files downloaded successfully."]
                ++ ((λ image, "Image file: " +:+ image)
                      <$> saved_names path_name messages))
               w)) as Hblock.
  { unfold with_client, with_agents.
    rewrite notify_run.
    rewrite (io_bind_Ok _ _ _ _ _ (request_run _ _ agents _ Hagents)).
    rewrite (io_bind_Ok _ _ _ _ _ (echo_run _ _)).
    rewrite (io_bind_Ok _ _ _ _ _ (Hget _)).
    rewrite (io_bind_Ok _ _ _ _ _ (request_run _ _ thread _ Hthread)).
    rewrite (io_bind_Ok _ _ _ _ _ (request_run _ _ () _ Hdone)).
    rewrite (io_bind_Ok _ _ _ _ _ (echo_run _ _)).
    rewrite (io_bind_Ok _ _ _ _ _ (request_run _ _ status _ Hrun)).
    apply String.eqb_neq in Hstatus. rewrite Hstatus.
    assert (∀ w0, (if String.eqb status "completed"
                   then echo "Run completed successfully." else mret ()) w0
                  = (Ok (), extend [] status_lines w0)) as Hline.
    { intros w0. unfold status_lines.
      destruct (String.eqb status "completed");
        [apply echo_run | by rewrite extend_nil]. }
    rewrite (io_bind_Ok _ _ _ _ _ (Hline _)).
    rewrite (io_bind_Ok _ _ _ _ _ (request_run _ _ messages _ Hmessages)).
    rewrite (download_run service path_name Hdone), !extend_extend.
    f_equal. f_equal. simpl.
    by repeat (rewrite <-app_assoc || rewrite <-app_comm_cons). }
  unfold run_agent_with_visualization. rewrite Hblock, notify_run, extend_extend.
  simpl.
  split; [done|]. split.
  - by rewrite <-!app_assoc.
  - exists (["Total agents found: " +:+ pretty.pretty (len agents)]
            ++ agent_lines
            ++ ["Executing the code interpreter agent with the user query: "
                +:+ user_query]
            ++ status_lines
            ++ text_messages messages
            ++ download_lines (path_name ∘ text <$> file_path_annotations messages)
            ++ ["Downloading image files from the messages..."]
            ++ download_lines
                 ((λ i, i +:+ "_image_file.png") <$> image_contents messages)).
    by rewrite app_nil_r.
Qed.

Lemma answered_run_saves_files_witness :
  (run_agent_with_visualization (sample_service "expired") (last_component "") start).1
  = Ok ()
  ∧ calls (run_agent_with_visualization (sample_service "expired")
             (last_component "") start).2
    = [ Enter; ListAgents; GetAgent "asst_2"; CreateThread;
        CreateMessage "thread_1" "user" user_query;
        CreateAndProcessRun "asst_2" "thread_1"; ListMessages "thread_1";
        SaveFile "file_1" (Str "chart.png");
        SaveFile "file_2" (PathOf "file_2_image_file.png"); Exit ]
  ∧ ∃ lines,
      console (run_agent_with_visualization (sample_service "expired")
                 (last_component "") start).2
      = lines
        ++ [ "All image files downloaded successfully.";
             "Image file: chart.png"; "Image file: file_2_image_file.png" ].
Proof.
  apply (answered_run_saves_files (sample_service "expired") (last_component "")
           (mkAgentList 5 [ mkAgent "asst_1" (Some "other");
                            mkAgent "asst_2" (Some "code-interpreter-agent") ])
           (mkAgent "asst_2" (Some "code-interpreter-agent"))
           "thread_1" "expired"
           (mkMessages ["{'type': 'text'}"]
              [mkAnnotation "file_1" "sandbox:/mnt/data/chart.png"] ["file_2"])
           start); try reflexivity.
  discriminate.
Defined.

End CodeInterpreterRun.
